(** * Turn orchestration and streaming aggregation: a shallow embedding

    The development follows two source files of the voice-agent
    orchestrator:

    - [conversations/single_conversation.py]: [clean_response] (module
      [Normalizer]) and [process_single_conversation] (module [Turn]);
    - [agent/stateless_llm/openai_compatible_llm.py]:
      [AsyncLLM.chat_completion] (module [LLM]).

    The definitions come first; the modules [NormalizerFacts], [LLMFacts]
    and [TurnFacts] hold what is proved about them.

    Python strings are sequences of Unicode code points; they are modelled
    as lists of [N]. *)

From Stdlib Require Import String Ascii NArith ZArith Bool Arith Lia List.
Import ListNotations.

Set Implicit Arguments.

(* ================================================================= *)
(** ** Python strings and exceptions *)

Module Py.

(** A [str] is the list of its code points. *)
Definition str := list N.

(** String literals of the development, read as code points. *)
Definition of_string (s : string) : str :=
  map N_of_ascii (list_ascii_of_string s).

Definition SPACE : N := 32.
Definition NEWLINE : N := 10.
Definition QUOTE : N := 34.
Definition LBRACKET : N := 91.
Definition RBRACKET : N := 93.

(** [str.isspace] on one code point, which is also the class [\s] of
    the [re] module on [str] patterns: both go through
    [Py_UNICODE_ISSPACE]. *)
Definition isspace (c : N) : bool :=
  (((9 <=? c) && (c <=? 13)) || ((28 <=? c) && (c <=? 32))
   || (c =? 133) || (c =? 160) || (c =? 5760)
   || ((8192 <=? c) && (c <=? 8202))
   || (c =? 8232) || (c =? 8233) || (c =? 8239) || (c =? 8287)
   || (c =? 12288))%N.

(** Truthiness of a [str] and of an optional [str] ([None] or [""] are
    falsy). *)
Definition truthy (s : str) : bool :=
  match s with [] => false | _ :: _ => true end.

Definition truthy_opt (o : option str) : bool :=
  match o with Some s => truthy s | None => false end.

(** [prefix p s]: [s.startswith(p)]. *)
Fixpoint prefix (p s : str) : bool :=
  match p, s with
  | [], _ => true
  | c :: p', d :: s' => (c =? d)%N && prefix p' s'
  | _ :: _, [] => false
  end.

(** [contains sub s]: the Python test [sub in s]. *)
Fixpoint contains (sub s : str) : bool :=
  prefix sub s ||
  match s with
  | [] => false
  | _ :: s' => contains sub s'
  end.

(** The exception classes that the modelled code distinguishes.
    [APIConnectionError] and [RateLimitError] are subclasses of
    [APIError]; [APIError] below stands for every other instance of
    that class.  [CancelledError] and [BaseExceptionOther]
    (KeyboardInterrupt, SystemExit, ...) derive from [BaseException]
    but not from [Exception]: the sources use the [X | Y] syntax for
    types, hence a Python in which [asyncio.CancelledError] is no
    [Exception]. *)
Inductive exn_class :=
| APIConnectionError
| RateLimitError
| APIError
| IndexError
| ExceptionOther
| CancelledError
| BaseExceptionOther.

(** An exception: its class and [str(e)]. *)
Record exn := Exn { cls : exn_class; msg : str }.

(** [isinstance(e, Exception)]. *)
Definition is_Exception (e : exn) : bool :=
  match cls e with
  | CancelledError | BaseExceptionOther => false
  | _ => true
  end.


(** What a call gives: a value, or an exception that it raises. *)
Inductive result (A : Type) : Type :=
| Ok (a : A)
| Raise (e : exn).

Arguments Ok {A} a.
Arguments Raise {A} e.

End Py.

(* ================================================================= *)
(** ** ResponseNormalizer: [clean_response] *)

Module Normalizer.
Import Py.

(** The character class [[,\.!?;:]]. *)
Definition is_punct (c : N) : bool :=
  ((c =? 44) || (c =? 46) || (c =? 33) || (c =? 63) || (c =? 59)
   || (c =? 58))%N.

(** A greedy [\s*] at the head of [t]: what is left after the longest
    run of whitespace.  It is also [str.lstrip()]. *)
Fixpoint lstrip (t : str) : str :=
  match t with
  | [] => []
  | c :: r => if isspace c then lstrip r else t
  end.

(** The lazy [.*?\]]: the text after the first [']'], when no line feed
    comes before it ([.] matches every code point but the line feed). *)
Fixpoint after_close (t : str) : option str :=
  match t with
  | [] => None
  | c :: r =>
      if (c =? RBRACKET)%N then Some r
      else if (c =? NEWLINE)%N then None
      else after_close r
  end.

(** A match of [\s*\[.*?\]\s*] that starts at the head of [t]: the text
    that follows the match.  The leading [\s*] can only stop at the end
    of the whitespace run, since a whitespace is no ['[']. *)
Definition annotation_at (t : str) : option str :=
  match lstrip t with
  | c :: r =>
      if (c =? LBRACKET)%N then option_map lstrip (after_close r)
      else None
  | [] => None
  end.

(** [re.sub(r"\s*\[.*?\]\s*", " ", text)]: the leftmost match is
    replaced and the scan goes on after it; where no match starts, the
    code point is copied.  A match is never empty, so the length of the
    text bounds the number of steps. *)
Fixpoint strip_annotations_fuel (n : nat) (t : str) : str :=
  match n with
  | O => []
  | S n' =>
      match annotation_at t with
      | Some rest => SPACE :: strip_annotations_fuel n' rest
      | None =>
          match t with
          | [] => []
          | c :: r => c :: strip_annotations_fuel n' r
          end
      end
  end.

Definition strip_annotations (t : str) : str :=
  strip_annotations_fuel (S (List.length t)) t.

(** [re.sub(r"([,\.!?;:])([^\s])", r"\1 \2", text)]: a match takes two
    code points, and the scan goes on after the second one. *)
Fixpoint space_after_punct (t : str) : str :=
  match t with
  | [] => []
  | c :: r =>
      match r with
      | [] => [c]
      | d :: r' =>
          if is_punct c && negb (isspace d)
          then c :: SPACE :: d :: space_after_punct r'
          else c :: space_after_punct r
      end
  end.

(** [re.sub(r"\s+", " ", text)]; [in_run] tells that the previous code
    point was a whitespace of the run being replaced. *)
Fixpoint collapse_from (in_run : bool) (t : str) : str :=
  match t with
  | [] => []
  | c :: r =>
      if isspace c
      then (if in_run then collapse_from true r
            else SPACE :: collapse_from true r)
      else c :: collapse_from false r
  end.

Definition collapse_whitespace (t : str) : str := collapse_from false t.

Definition rstrip (t : str) : str := rev (lstrip (rev t)).

(** [str.strip()]. *)
Definition strip (t : str) : str := rstrip (lstrip t).

Definition clean_response (text : str) : str :=
  let text := strip_annotations text in
  let text := space_after_punct text in
  strip (collapse_whitespace text).

(** *** Shapes of texts *)

(** The text does not start with a whitespace. *)
Definition starts_clean (t : str) : Prop :=
  match t with [] => True | c :: _ => isspace c = false end.

(** The result of [strip] neither starts nor ends with a whitespace. *)
Definition trimmed (t : str) : Prop :=
  lstrip t = t /\ lstrip (rev t) = rev t.

(** Every whitespace is a single [' '] followed by a non-whitespace or
    by the end of the text. *)
Fixpoint single_spaced (t : str) : Prop :=
  match t with
  | [] => True
  | c :: r =>
      (isspace c = true -> c = SPACE /\ starts_clean r) /\ single_spaced r
  end.

(** The non-whitespace code points of a text, in order. *)
Definition non_ws (t : str) : str := filter (fun c => negb (isspace c)) t.

(** A punctuation mark that comes right after another one is followed
    by a whitespace or ends the text. *)
Fixpoint no_crowded_punct (t : str) : Prop :=
  match t with
  | [] => True
  | c :: r =>
      match r with
      | d :: e :: _ =>
          is_punct c = true -> is_punct d = true -> isspace e = true
      | _ => True
      end /\ no_crowded_punct r
  end.

(** Every punctuation mark is followed by a whitespace or ends the text. *)
Fixpoint punct_spaced (t : str) : Prop :=
  match t with
  | [] => True
  | c :: r =>
      match r with
      | [] => True
      | d :: _ => is_punct c = true -> isspace d = true
      end /\ punct_spaced r
  end.

(** No ['['] has a [']'] anywhere after it. *)
Fixpoint no_bracket_pair (t : str) : Prop :=
  match t with
  | [] => True
  | c :: r => (c = LBRACKET -> ~ In RBRACKET r) /\ no_bracket_pair r
  end.

(** A [']'] stands somewhere after a line feed of the text. *)
Fixpoint closes_after_newline (t : str) : Prop :=
  match t with
  | [] => False
  | c :: r => (c = NEWLINE /\ In RBRACKET r) \/ closes_after_newline r
  end.

(** No ['['] is followed by a line feed and, further on, by a [']']. *)
Fixpoint annotations_on_one_line (t : str) : Prop :=
  match t with
  | [] => True
  | c :: r =>
      (c = LBRACKET -> ~ closes_after_newline r)
      /\ annotations_on_one_line r
  end.

(** Every ['['] that has a [']'] somewhere after it has one on its own
    line, before the next line feed. *)
Fixpoint annotations_closed_on_line (t : str) : Prop :=
  match t with
  | [] => True
  | c :: r =>
      (c = LBRACKET -> In RBRACKET r -> after_close r <> None)
      /\ annotations_closed_on_line r
  end.

(** A text in normal form: no annotation left to strip, every
    punctuation mark spaced, whitespace collapsed and trimmed. *)
Definition normal_form (t : str) : Prop :=
  no_bracket_pair t /\ punct_spaced t /\ single_spaced t /\ trimmed t.

End Normalizer.

(* ================================================================= *)
(** ** StreamAggregator: [AsyncLLM.chat_completion] *)

Module LLM.
Import Py.

(** *** Chunks of the backend stream *)

(** [tool_call.function]: a name and a fragment of the arguments. *)
Record ChoiceDeltaFunction := {
  fn_name : option str;
  fn_arguments : option str
}.

(** One fragment of a tool call, [ChoiceDeltaToolCall]; [tc_index] is
    [None] when the fragment has no attribute [index]. *)
Record ChoiceDeltaToolCall := {
  tc_index : option Z;
  tc_id : option str;
  tc_type : option str;
  tc_function : option ChoiceDeltaFunction
}.

(** [getattr(tool_call, "index", 0)]. *)
Definition index_of (tool_call : ChoiceDeltaToolCall) : Z :=
  match tc_index tool_call with Some i => i | None => 0 end.

(** [chunk.choices[k].delta]; [tool_calls] is [None] when the attribute
    is missing or holds [None]. *)
Record ChoiceDelta := {
  content : option str;
  tool_calls : option (list ChoiceDeltaToolCall)
}.

Record Choice := { delta : ChoiceDelta }.

Record ChatCompletionChunk := { choices : list Choice }.

(** The stream that [create] returns: the chunks that its iteration
    gives, and how the iteration ends, exhausted ([None]) or raising. *)
Record AsyncStream := {
  chunks : list ChatCompletionChunk;
  ending : option exn
}.

(** *** The accumulator [accumulated_tool_calls] *)

(** A value of the dictionary:
    [{"index", "id", "type", "function": {"name", "arguments"}}]. *)
Record tool_data := {
  td_index : Z;
  td_id : option str;
  td_type : option str;
  td_name : str;
  td_arguments : str
}.

(** A Python [dict] keeps its keys in insertion order, and [values()]
    follows it: an association list whose keys are distinct. *)
Definition dict := list (Z * tool_data).

Fixpoint lookup (k : Z) (d : dict) : option tool_data :=
  match d with
  | [] => None
  | (k', v) :: d' => if (k' =? k)%Z then Some v else lookup k d'
  end.

(** [k in d]. *)
Definition mem (k : Z) (d : dict) : bool :=
  match lookup k d with Some _ => true | None => false end.

(** [d[k] = f(d[k])] for a key that [d] has; the entry keeps its place. *)
Fixpoint update (k : Z) (f : tool_data -> tool_data) (d : dict) : dict :=
  match d with
  | [] => []
  | (k', v) :: d' =>
      if (k' =? k)%Z then (k', f v) :: d' else (k', v) :: update k f d'
  end.

(** [d[k] = v] for a key that [d] does not have. *)
Definition insert_new (k : Z) (v : tool_data) (d : dict) : dict :=
  d ++ [(k, v)].

Definition values (d : dict) : list tool_data := map snd d.

(** Truthiness of a [dict]: it has an entry. *)
Definition non_empty_dict (d : dict) : bool :=
  match d with [] => false | _ :: _ => true end.

Definition set_id (v : option str) (r : tool_data) : tool_data :=
  {| td_index := td_index r; td_id := v; td_type := td_type r;
     td_name := td_name r; td_arguments := td_arguments r |}.

Definition set_type (v : option str) (r : tool_data) : tool_data :=
  {| td_index := td_index r; td_id := td_id r; td_type := v;
     td_name := td_name r; td_arguments := td_arguments r |}.

Definition set_name (v : str) (r : tool_data) : tool_data :=
  {| td_index := td_index r; td_id := td_id r; td_type := td_type r;
     td_name := v; td_arguments := td_arguments r |}.

Definition append_arguments (v : str) (r : tool_data) : tool_data :=
  {| td_index := td_index r; td_id := td_id r; td_type := td_type r;
     td_name := td_name r; td_arguments := td_arguments r ++ v |}.

(** The body of [for tool_call in chunk.choices[0].delta.tool_calls]. *)
Definition accumulate_tool_call
  (accumulated_tool_calls : dict) (tool_call : ChoiceDeltaToolCall) : dict :=
  let index := index_of tool_call in
  let acc :=
    if mem index accumulated_tool_calls then accumulated_tool_calls
    else insert_new index
           {| td_index := index;
              td_id := tc_id tool_call;
              td_type := tc_type tool_call;
              td_name := [];
              td_arguments := [] |}
           accumulated_tool_calls in
  let acc :=
    if truthy_opt (tc_id tool_call)
    then update index (set_id (tc_id tool_call)) acc else acc in
  let acc :=
    if truthy_opt (tc_type tool_call)
    then update index (set_type (tc_type tool_call)) acc else acc in
  match tc_function tool_call with
  | None => acc
  | Some fn =>
      let acc :=
        match fn_name fn with
        | Some name =>
            if truthy name then update index (set_name name) acc else acc
        | None => acc
        end in
      match fn_arguments fn with
      | Some arguments =>
          if truthy arguments
          then update index (append_arguments arguments) acc else acc
      | None => acc
      end
  end.

(** The fragments of a list, merged in order, from a given dictionary. *)
Definition accumulate_from (acc : dict) (fs : list ChoiceDeltaToolCall) : dict :=
  fold_left accumulate_tool_call fs acc.

Definition accumulate (fs : list ChoiceDeltaToolCall) : dict :=
  accumulate_from [] fs.

(** *** The loop over the stream *)

(** The local variables of the loop. *)
Record locals := {
  accumulated_tool_calls : dict;
  in_tool_call : bool;
  final_text : str
}.

Definition initial_locals : locals :=
  {| accumulated_tool_calls := []; in_tool_call := false; final_text := [] |}.

(** [if len(chunk.choices) > 0 and chunk.choices[0].delta.content:
       final_text += chunk.choices[0].delta.content]. *)
Definition collect_text (st : locals) (chunk : ChatCompletionChunk) : locals :=
  match choices chunk with
  | [] => st
  | c0 :: _ =>
      match content (delta c0) with
      | Some s =>
          if truthy s
          then {| accumulated_tool_calls := accumulated_tool_calls st;
                  in_tool_call := in_tool_call st;
                  final_text := final_text st ++ s |}
          else st
      | None => st
      end
  end.

(** One iteration of [async for chunk in stream].  With tool support
    on, [chunk.choices[0]] is read before the length of [chunk.choices]
    is tested: an empty list raises [IndexError]. *)
Definition consume_chunk (support_tools : bool) (st : locals)
  (chunk : ChatCompletionChunk) : result locals :=
  if support_tools then
    match choices chunk with
    | [] => Raise (Exn IndexError (of_string "list index out of range"))
    | c0 :: _ =>
        match tool_calls (delta c0) with
        | Some (tc :: tcs) =>
            Ok {| accumulated_tool_calls :=
                    accumulate_from (accumulated_tool_calls st) (tc :: tcs);
                  in_tool_call := true;
                  final_text := final_text st |}
        | _ => Ok (collect_text st chunk)
        end
    end
  else Ok (collect_text st chunk).

Fixpoint consume (support_tools : bool) (st : locals)
  (l : list ChatCompletionChunk) : result locals :=
  match l with
  | [] => Ok st
  | chunk :: l' =>
      match consume_chunk support_tools st chunk with
      | Ok st' => consume support_tools st' l'
      | Raise e => Raise e
      end
  end.

(** *** Messages, requests and the instance *)

Record message := { role : str; msg_content : str }.

Definition SENTINEL : str := of_string "__API_NOT_SUPPORT_TOOLS__".
Definition CONNECTION_ERROR : str :=
  of_string "Error calling the chat endpoint: Connection error.".
Definition RATE_LIMIT_ERROR : str :=
  of_string
    "Error calling the chat endpoint: Rate limit exceeded. Please try again later.".
Definition GENERIC_ERROR : str :=
  of_string
    "Error calling the chat endpoint: Error occurred while generating response.".
Definition NO_TOOLS : str := of_string "does not support tools".

(** *** Reading a list of fragments *)

(** The fragments that carry the call index [i], in stream order. *)
Definition select (i : Z) (fs : list ChoiceDeltaToolCall)
  : list ChoiceDeltaToolCall :=
  filter (fun tc => (index_of tc =? i)%Z) fs.

Definition name_of (tc : ChoiceDeltaToolCall) : option str :=
  match tc_function tc with Some fn => fn_name fn | None => None end.

Definition arguments_of (tc : ChoiceDeltaToolCall) : option str :=
  match tc_function tc with Some fn => fn_arguments fn | None => None end.

(** The values that are present and not empty, in order. *)
Definition non_empty (vs : list (option str)) : list str :=
  flat_map (fun v => match v with
                     | Some s => if truthy s then [s] else []
                     | None => []
                     end) vs.

Definition first_non_empty (vs : list (option str)) : option str :=
  hd_error (non_empty vs).

Definition last_non_empty (vs : list (option str)) : option str :=
  hd_error (rev (non_empty vs)).

(** The tool-call fragments of a chunk, its text, and its kind. *)
Definition fragments (chunk : ChatCompletionChunk) : list ChoiceDeltaToolCall :=
  match choices chunk with
  | [] => []
  | c0 :: _ =>
      match tool_calls (delta c0) with Some l => l | None => [] end
  end.

Definition text_of (chunk : ChatCompletionChunk) : str :=
  match choices chunk with
  | [] => []
  | c0 :: _ => match content (delta c0) with Some s => s | None => [] end
  end.

Definition has_choice (chunk : ChatCompletionChunk) : bool :=
  match choices chunk with [] => false | _ :: _ => true end.

(** [has_tool_calls]: the attribute is there and holds a list that is
    not empty. *)
Definition has_tool_calls (chunk : ChatCompletionChunk) : bool :=
  match fragments chunk with [] => false | _ :: _ => true end.

Definition is_text_delta (chunk : ChatCompletionChunk) : bool :=
  has_choice chunk && negb (has_tool_calls chunk).

Section AsyncLLM.

(** The types that the source imports from elsewhere: the tool schemas
    ([Dict[str, Any]]), the sampling temperature (a float) and
    [mcpp.types.ToolCallObject] with its [from_dict]. *)
Variable tool_schema : Type.
Variable float : Type.
Variable ToolCallObject : Type.
Variable from_dict : tool_data -> ToolCallObject.

(** The instance: what [__init__] stores, less the client. *)
Record AsyncLLM := {
  base_url : str;
  model : str;
  temperature : float;
  support_tools : bool
}.

(** The keyword arguments of [self.client.chat.completions.create];
    [req_tools = None] is [NOT_GIVEN]. *)
Record request := {
  req_messages : list message;
  req_model : str;
  req_stream : bool;
  req_temperature : float;
  req_tools : option (list tool_schema)
}.

(** What the generator yields. *)
Inductive item :=
| Text (s : str)
| ToolCalls (l : list ToolCallObject).

(** One run of the generator to its end: the items yielded, the
    exception that leaves the generator if any, the instance afterwards,
    the request made and whether [stream.close()] ran. *)
Record run := {
  yielded : list item;
  raised : option exn;
  self_after : AsyncLLM;
  request_made : request;
  stream_closed : bool
}.

Definition disable_tools (self : AsyncLLM) : AsyncLLM :=
  {| base_url := base_url self; model := model self;
     temperature := temperature self; support_tools := false |}.

Definition build_request (self : AsyncLLM) (messages : list message)
  (system : option str) (tools : option (list tool_schema)) : request :=
  let messages_with_system :=
    match system with
    | Some s =>
        if truthy s
        then {| role := of_string "system"; msg_content := s |} :: messages
        else messages
    | None => messages
    end in
  let available_tools := if support_tools self then tools else None in
  {| req_messages := messages_with_system;
     req_model := model self;
     req_stream := true;
     req_temperature := temperature self;
     req_tools := available_tools |}.

(** The [except] clauses, in their order, and [finally]. *)
Definition handle (self : AsyncLLM) (req : request) (closed : bool)
  (e : exn) : run :=
  match cls e with
  | APIConnectionError =>
      {| yielded := [Text CONNECTION_ERROR]; raised := None;
         self_after := self; request_made := req; stream_closed := closed |}
  | RateLimitError =>
      {| yielded := [Text RATE_LIMIT_ERROR]; raised := None;
         self_after := self; request_made := req; stream_closed := closed |}
  | APIError =>
      if contains NO_TOOLS (msg e)
      then {| yielded := [Text SENTINEL]; raised := None;
              self_after := disable_tools self;
              request_made := req; stream_closed := closed |}
      else {| yielded := [Text GENERIC_ERROR]; raised := None;
              self_after := self; request_made := req;
              stream_closed := closed |}
  | _ =>
      {| yielded := []; raised := Some e;
         self_after := self; request_made := req; stream_closed := closed |}
  end.

(** The end of the [try] body. *)
Definition final_item (st : locals) : item :=
  if in_tool_call st && non_empty_dict (accumulated_tool_calls st)
  then ToolCalls (map from_dict (values (accumulated_tool_calls st)))
  else Text (final_text st).

(** [chat_completion], run by a consumer that takes every item.
    [create] is what [self.client.chat.completions.create] does during
    the call. *)
Definition chat_completion (self : AsyncLLM)
  (create : request -> result AsyncStream)
  (messages : list message) (system : option str)
  (tools : option (list tool_schema)) : run :=
  let req := build_request self messages system tools in
  match create req with
  | Raise e => handle self req false e
  | Ok stream =>
      match consume (support_tools self) initial_locals (chunks stream) with
      | Raise e => handle self req true e
      | Ok st =>
          match ending stream with
          | Some e => handle self req true e
          | None =>
              {| yielded := [final_item st]; raised := None;
                 self_after := self; request_made := req;
                 stream_closed := true |}
          end
      end
  end.

(** Calls made one after the other on one instance. *)
Record call := {
  call_create : request -> result AsyncStream;
  call_messages : list message;
  call_system : option str;
  call_tools : option (list tool_schema)
}.

Definition do_call (self : AsyncLLM) (c : call) : run :=
  chat_completion self (call_create c) (call_messages c) (call_system c)
    (call_tools c).

Fixpoint do_calls (self : AsyncLLM) (cs : list call) : list run :=
  match cs with
  | [] => []
  | c :: cs' =>
      let r := do_call self c in
      r :: do_calls (self_after r) cs'
  end.

End AsyncLLM.

Arguments Text {ToolCallObject} s.
Arguments ToolCalls {ToolCallObject} l.
Arguments handle {tool_schema float ToolCallObject} self req closed e.

(** *** Where a call meets an exception *)

(** Where a call meets an exception [e] of the backend: [create] raises
    it, or the iteration raises it after the chunks it has given were
    consumed. *)
Definition raised_by_create {tool_schema float : Type}
  (create : request tool_schema float -> result AsyncStream)
  (req : request tool_schema float) (e : exn) : Prop :=
  create req = Raise e.

Definition raised_in_iteration {tool_schema float : Type}
  (self : AsyncLLM float)
  (create : request tool_schema float -> result AsyncStream)
  (req : request tool_schema float) (e : exn) : Prop :=
  exists stream st,
    create req = Ok stream
    /\ consume (support_tools self) initial_locals (chunks stream) = Ok st
    /\ ending stream = Some e.

(** *** What the fragments of one index accumulate to *)

(** One fragment merged into the record of its index. *)
Definition merge (r : tool_data) (tc : ChoiceDeltaToolCall) : tool_data :=
  {| td_index := td_index r;
     td_id := if truthy_opt (tc_id tc) then tc_id tc else td_id r;
     td_type := if truthy_opt (tc_type tc) then tc_type tc else td_type r;
     td_name := match name_of tc with
                | Some n => if truthy n then n else td_name r
                | None => td_name r
                end;
     td_arguments := td_arguments r ++ concat (non_empty [arguments_of tc]) |}.

(** The record made for an index that is not in the dictionary. *)
Definition fresh (tc : ChoiceDeltaToolCall) : tool_data :=
  {| td_index := index_of tc; td_id := tc_id tc; td_type := tc_type tc;
     td_name := []; td_arguments := [] |}.

(** The record for index [i], read off the fragments [sel] that carry
    it. *)
Definition summary (i : Z) (sel : list ChoiceDeltaToolCall)
  : option tool_data :=
  match sel with
  | [] => None
  | f0 :: _ =>
      Some {| td_index := i;
              td_id := match last_non_empty (map tc_id sel) with
                       | Some v => Some v
                       | None => tc_id f0
                       end;
              td_type := match last_non_empty (map tc_type sel) with
                         | Some v => Some v
                         | None => tc_type f0
                         end;
              td_name := match last_non_empty (map name_of sel) with
                         | Some v => v
                         | None => []
                         end;
              td_arguments := concat (non_empty (map arguments_of sel)) |}
  end.

(** *** Fragments and streams of the examples *)

(** The fragments of the specification's example: ['{"a":'] then ['1}']
    at index 0. *)
Definition arguments_fragment (i : Z) (a : str) : ChoiceDeltaToolCall :=
  {| tc_index := Some i; tc_id := None; tc_type := None;
     tc_function := Some {| fn_name := None; fn_arguments := Some a |} |}.

Definition example_arguments : list ChoiceDeltaToolCall :=
  [ arguments_fragment 0
      (of_string "{" ++ [QUOTE] ++ of_string "a" ++ [QUOTE] ++ of_string ":");
    arguments_fragment 0 (of_string "1}") ].

(** Fragments of two calls, index 1 first, whose arguments alternate. *)
Definition example_interleaved : list ChoiceDeltaToolCall :=
  [ {| tc_index := Some 1%Z; tc_id := Some (of_string "call_b");
       tc_type := Some (of_string "function");
       tc_function := Some {| fn_name := Some (of_string "g");
                              fn_arguments := Some [] |} |};
    {| tc_index := None; tc_id := Some []; tc_type := None;
       tc_function := Some {| fn_name := Some (of_string "f");
                              fn_arguments := Some (of_string "{") |} |};
    arguments_fragment 1 (of_string "[1");
    arguments_fragment 0 (of_string "}");
    arguments_fragment 1 (of_string "]") ].

(** Two fragments of index 0 that both carry an [id]. *)
Definition id_fragment (i : Z) (v : str) : ChoiceDeltaToolCall :=
  {| tc_index := Some i; tc_id := Some v; tc_type := None; tc_function := None |}.

Definition example_ids : list ChoiceDeltaToolCall :=
  [ id_fragment 0 (of_string "call_a"); id_fragment 0 (of_string "call_b") ].

(** An instance whose tool schemas are names, whose temperature is an
    integer and whose [ToolCallObject] is the accumulated record. *)
Definition example_self : AsyncLLM Z :=
  {| base_url := of_string "http://localhost:11434/v1";
     model := of_string "qwen";
     temperature := 1%Z;
     support_tools := true |}.

Definition example_tools : option (list str) :=
  Some [of_string "get_weather"].

Definition text_chunk (s : str) : ChatCompletionChunk :=
  {| choices := [ {| delta := {| content := Some s; tool_calls := None |} |} ] |}.

Definition tool_chunk (l : list ChoiceDeltaToolCall) : ChatCompletionChunk :=
  {| choices := [ {| delta := {| content := None; tool_calls := Some l |} |} ] |}.

Definition example_text_stream : AsyncStream :=
  {| chunks := [text_chunk (of_string "Hel"); text_chunk [];
                text_chunk (of_string "lo")];
     ending := None |}.

Definition example_tool_stream : AsyncStream :=
  {| chunks :=
       [ text_chunk (of_string "Let me check. ");
         tool_chunk
           [ {| tc_index := Some 0%Z;
                tc_id := Some (of_string "call_a");
                tc_type := Some (of_string "function");
                tc_function :=
                  Some {| fn_name := Some (of_string "get_weather");
                          fn_arguments := Some (of_string "{") |} |} ];
         text_chunk (of_string "One moment.");
         tool_chunk [ arguments_fragment 0 (of_string "}") ] ];
     ending := None |}.

Definition example_run (stream : AsyncStream) : run str Z tool_data :=
  chat_completion (fun r => r) example_self (fun _ => Ok stream) [] None
    example_tools.

(** A backend that refuses tools when the request is made. *)
Definition tools_refused : exn :=
  Exn APIError
    (of_string "Error code: 400 - registry.ollama.ai/library/x does not support tools").

(** A connection error whose text happens to speak of tools. *)
Definition connection_lost : exn :=
  Exn APIConnectionError (of_string "proxy: upstream does not support tools").

(** A stream that gives ["Hi"] and then loses the connection. *)
Definition example_broken_stream : AsyncStream :=
  {| chunks := [text_chunk (of_string "Hi")];
     ending := Some (Exn APIConnectionError (of_string "Connection error.")) |}.

(** *** The instance at its creation, and the keys of a dictionary *)

(** [__init__]: the arguments that are kept, and [support_tools = True];
    the key and the identifiers only go to the client. *)
Definition init {float : Type} (model base_url : str) (temperature : float)
  : AsyncLLM float :=
  {| base_url := base_url; model := model; temperature := temperature;
     support_tools := true |}.

(** [list(d.keys())]. *)
Definition keys (d : dict) : list Z := map fst d.

(** The distinct elements of a list, each at its first occurrence
    ([nodup] keeps the last ones). *)
Definition first_occurrences (l : list Z) : list Z :=
  rev (nodup Z.eq_dec (rev l)).

(** A stream with a chunk that has no choice and a chunk of tool-call
    fragments between its texts. *)
Definition example_mixed_stream : AsyncStream :=
  {| chunks := [ {| choices := [] |};
                 text_chunk (of_string "No ");
                 tool_chunk [ arguments_fragment 0 (of_string "{}") ];
                 text_chunk (of_string "tools.") ];
     ending := None |}.

(** An error of the backend that says nothing about tools. *)
Definition server_error : exn :=
  Exn APIError (of_string "Error code: 500 - internal error").

(** Three calls on a new instance: the tools go out twice, the second
    call meets the refusal, and the third call sends none. *)
Definition example_calls : list (call str Z) :=
  [ {| call_create := fun _ => Ok example_text_stream;
       call_messages := []; call_system := None;
       call_tools := example_tools |};
    {| call_create := fun _ => Raise tools_refused;
       call_messages := []; call_system := None;
       call_tools := example_tools |};
    {| call_create := fun _ => Ok example_text_stream;
       call_messages := []; call_system := None;
       call_tools := example_tools |} ].

End LLM.

(* ================================================================= *)
(** ** TurnController: [process_single_conversation] *)

Module Turn.
Import Py.

(** *** What the turn exchanges with the outside *)

(** A dictionary of type ["tool_call_status"] that the agent yields,
    before the controller writes its ["name"]: the other keys and their
    values, which the turn does not read. *)
Definition tool_status := list (str * str).

(** The messages that this function sends to the client itself. *)
Inductive client_event :=
| ToolCallStatus (payload : tool_status) (name : str)
| ErrorEvent (message : str)
| BackendSynthComplete.

(** An item of the agent's output stream.  A [SentenceOutput] is
    iterated for its [tts_text]s and an [AudioOutput] for its
    transcripts; either iteration may raise after some of them.  Any
    other item, a dictionary of another type included, is [Unexpected]. *)
Inductive output_item :=
| ToolStatus (payload : tool_status)
| SentenceOutput (tts_texts : list str) (ending : option exn)
| AudioOutput (transcripts : list str) (ending : option exn)
| Unexpected.

(** The stream that [agent_engine.chat] returns: the items that its
    iteration gives, and how the iteration ends, exhausted ([None]) or
    raising (a model error, or [CancelledError] while awaiting). *)
Record agent_stream := {
  items : list output_item;
  stream_ending : option exn
}.

Record DisplayText := {
  text : str;
  display_name : str;
  display_avatar : str
}.

(** The fields of [ServiceContext] that the turn reads as data. *)
Record ServiceContext := {
  history_uid : option str;
  conf_uid : str;
  human_name : str;
  character_name : str;
  avatar : str
}.

Record Metadata := { skip_history : bool }.

(** The calls that the turn makes, as they are logged, and the
    exceptions that the awaited calls and iterations raise. *)
Inductive event :=
| EvStartSignals
| EvProcessUserInput
| EvStoreMessage (role content : str)
| EvChat
| EvSend (ev : client_event)
| EvSpeak (tts_text : str)
| EvGather
| EvFinalize
| EvCleanup
| EvRaised (e : exn).

Definition is_cleanup (ev : event) : bool :=
  match ev with EvCleanup => true | _ => false end.

(** How many times the cleanup routine ran. *)
Definition cleanups (l : list event) : nat :=
  List.length (filter is_cleanup l).

(** What the log keeps of the outcome of a call. *)
Definition outcome {A} (r : result A) : list event :=
  match r with
  | Ok _ => []
  | Raise e => [EvRaised e]
  end.

(** *** A state and exception monad *)

Section Monad.

(** The state of everything outside the function: the client, the
    engines, the stores, the TTS manager. *)
Variable World : Type.

(** The world, the log of the calls made, and the local variable
    [full_response].  What a call did stays done when it raises. *)
Record state := {
  world : World;
  log : list event;
  full_response : str
}.

Definition M (A : Type) : Type := state -> result A * state.

Definition ret {A} (a : A) : M A := fun s => (Ok a, s).

Definition raise {A} (e : exn) : M A := fun s => (Raise e, s).

Definition bind {A B} (m : M A) (k : A -> M B) : M B :=
  fun s =>
    match m s with
    | (Ok a, s') => k a s'
    | (Raise e, s') => (Raise e, s')
    end.

(** A logged call of a collaborator. *)
Definition call {A} (ev : event) (f : World -> result A * World) : M A :=
  fun s =>
    let (r, w) := f (world s) in
    (r, {| world := w; log := log s ++ ev :: outcome r;
           full_response := full_response s |}).

(** An awaited iteration raises [e]. *)
Definition throw {A} (e : exn) : M A :=
  fun s =>
    (Raise e, {| world := world s; log := log s ++ [EvRaised e];
                 full_response := full_response s |}).

(** [full_response += t]. *)
Definition buffer (t : str) : M unit :=
  fun s =>
    (Ok tt, {| world := world s; log := log s;
               full_response := full_response s ++ t |}).

Definition read_full_response : M str := fun s => (Ok (full_response s), s).

(** [try: m  except <clauses>: ...]: [handler e] is the body of the
    clause that takes [e], if there is one. *)
Definition try_except {A} (m : M A) (handler : exn -> option (M A)) : M A :=
  fun s =>
    match m s with
    | (Ok a, s') => (Ok a, s')
    | (Raise e, s') =>
        match handler e with
        | Some h => h s'
        | None => (Raise e, s')
        end
    end.

(** [try: m  finally: f]: [f] runs on every exit of [m]; an exception
    of [f] replaces the outcome of [m]. *)
Definition try_finally {A} (m : M A) (f : M unit) : M A :=
  fun s =>
    match m s with
    | (r, s') =>
        match f s' with
        | (Ok _, s'') => (r, s'')
        | (Raise e, s'') => (Raise e, s'')
        end
    end.

Definition when (b : bool) (m : M unit) : M unit :=
  if b then m else ret tt.

(** The state in which the function starts: [full_response = ""]. *)
Definition start (w : World) : state :=
  {| world := w; log := []; full_response := [] |}.

(** A computation that does not run the cleanup routine. *)
Definition quiet {A} (m : M A) : Prop :=
  forall s, cleanups (log (snd (m s))) = cleanups (log s).

(** A computation that only adds to the log, and that an exception
    outside of [Exception] (a cancellation first of all) leaves as soon as
    an awaited call raises it. *)
Definition lets_through {A} (m : M A) : Prop :=
  forall s,
    exists evs,
      log (snd (m s)) = log s ++ evs
      /\ forall e, In (EvRaised e) evs -> is_Exception e = false ->
                   fst (m s) = Raise e.

End Monad.

Arguments ret {World A} a.
Arguments raise {World A} e.
Arguments throw {World A} e.
Arguments buffer {World} t.
Arguments read_full_response {World}.
Arguments when {World} b m.

Notation "x <- m ;; k" := (bind m (fun x => k))
  (at level 61, m at next level, right associativity).
Notation "m ;;; k" := (bind m (fun _ => k))
  (at level 61, right associativity).

(** *** The collaborators *)

Section Conversation.

Variable World : Type.

(** The types of the values that only pass through. *)
Variable UserInput : Type.
Variable Images : Type.
Variable BatchInput : Type.

(** Each collaborator acts on the world and returns or raises; a
    cancellation shows as a [CancelledError] raised by the call that is
    being awaited. *)
Record Collaborators := {
  send_conversation_start_signals : World -> result unit * World;
  process_user_input : UserInput -> World -> result str * World;
  create_batch_input :
    str -> option Images -> str -> option Metadata -> BatchInput;
  store_message :
    str -> str -> str -> str -> str -> option str ->
    World -> result unit * World;
  chat : BatchInput -> World -> result agent_stream * World;
  websocket_send : client_event -> World -> result unit * World;
  speak : str -> DisplayText -> World -> result unit * World;
  task_list : World -> bool;
  gather : World -> result unit * World;
  finalize_conversation_turn : str -> World -> result unit * World;
  (** [cleanup_conversation] of [conversation_utils] is not among the
      sources.  After the specification it releases the TTS-manager
      resources and records the end of the turn: it acts on the world
      and returns. *)
  cleanup_conversation : World -> World
}.

Variable env : Collaborators.
Variable context : ServiceContext.

(** [bool(tts_manager.task_list)]. *)
Definition read_task_list : M World bool :=
  fun s => (Ok (task_list env (world s)), s).

(** *** The turn *)

Definition send (ev : client_event) : M World unit :=
  call (EvSend ev) (websocket_send env ev).

(** [async for ... in output_item: full_response += ...]. *)
Fixpoint buffer_all (texts : list str) : M World unit :=
  match texts with
  | [] => ret tt
  | t :: texts' => buffer t ;;; buffer_all texts'
  end.

Definition end_of_iteration (ending : option exn) : M World unit :=
  match ending with
  | Some e => throw e
  | None => ret tt
  end.

(** The body of [async for output_item in agent_stream]. *)
Definition handle_item (output_item : output_item) : M World unit :=
  match output_item with
  | ToolStatus payload =>
      send (ToolCallStatus payload (character_name context))
  | SentenceOutput tts_texts ending =>
      buffer_all tts_texts ;;; end_of_iteration ending
  | AudioOutput transcripts ending =>
      buffer_all transcripts ;;; end_of_iteration ending
  | Unexpected => ret tt
  end.

Fixpoint handle_items (l : list output_item) : M World unit :=
  match l with
  | [] => ret tt
  | output_item :: l' => handle_item output_item ;;; handle_items l'
  end.

(** The [try] body of step 4. *)
Definition drain (batch_input : BatchInput) : M World unit :=
  agent_stream <- call EvChat (chat env batch_input) ;;
  handle_items (items agent_stream) ;;;
  end_of_iteration (stream_ending agent_stream).

(** The clause [except Exception as e] of step 4. *)
Definition report (e : exn) : option (M World unit) :=
  if is_Exception e then Some (send (ErrorEvent (msg e))) else None.

(** Step 4: stream the LLM and buffer all its text. *)
Definition stream_llm (batch_input : BatchInput) : M World unit :=
  try_except (drain batch_input) report.

Definition history_enabled : bool := truthy_opt (history_uid context).

Definition history_id : str :=
  match history_uid context with Some h => h | None => [] end.

(** Steps 5 to 9, and the [return]. *)
Definition finish_turn (client_uid : str) : M World str :=
  full_response <- read_full_response ;;
  let cleaned_response := Normalizer.clean_response full_response in
  when (truthy cleaned_response)
    (call (EvSpeak cleaned_response)
       (speak env cleaned_response
          {| text := cleaned_response;
             display_name := character_name context;
             display_avatar := avatar context |})) ;;;
  pending <- read_task_list ;;
  when pending
    (call EvGather (gather env) ;;; send BackendSynthComplete) ;;;
  call EvFinalize (finalize_conversation_turn env client_uid) ;;;
  when (history_enabled && truthy cleaned_response)
    (call (EvStoreMessage (of_string "ai") cleaned_response)
       (store_message env (conf_uid context) history_id (of_string "ai")
          cleaned_response (character_name context)
          (Some (avatar context)))) ;;;
  ret cleaned_response.

(** The body of the outer [try].  Before it the function only creates
    the TTS manager, which lives in the world, and sets
    [full_response = ""], as [start] does. *)
Definition turn_body (client_uid : str) (user_input : UserInput)
  (images : option Images) (metadata : option Metadata) : M World str :=
  call EvStartSignals (send_conversation_start_signals env) ;;;
  input_text <- call EvProcessUserInput (process_user_input env user_input) ;;
  let batch_input :=
    create_batch_input env input_text images (human_name context) metadata in
  let skip_history :=
    match metadata with Some m => skip_history m | None => false end in
  when (history_enabled && negb skip_history)
    (call (EvStoreMessage (of_string "human") input_text)
       (store_message env (conf_uid context) history_id (of_string "human")
          input_text (human_name context) None)) ;;;
  stream_llm batch_input ;;;
  finish_turn client_uid.

(** The clause [except asyncio.CancelledError: ... raise]. *)
Definition reraise_cancelled {A} (e : exn) : option (M World A) :=
  match cls e with
  | CancelledError => Some (raise e)
  | _ => None
  end.

(** [finally: cleanup_conversation(tts_manager, session_emoji)]. *)
Definition cleanup : M World unit :=
  fun s =>
    (Ok tt, {| world := cleanup_conversation env (world s);
               log := log s ++ [EvCleanup];
               full_response := full_response s |}).

Definition process_single_conversation (client_uid : str)
  (user_input : UserInput) (images : option Images)
  (metadata : option Metadata) : M World str :=
  try_finally
    (try_except (turn_body client_uid user_input images metadata)
       reraise_cancelled)
    cleanup.

End Conversation.

(** *** Turns on concrete collaborators *)

(** A world without state, and an agent whose stream gives one sentence
    and then fails. *)
Definition model_error : exn :=
  Exn ExceptionOther (of_string "model overloaded").

Definition failing_stream : agent_stream :=
  {| items := [SentenceOutput [of_string "Hello[smile]friend.";
                               of_string "I'm good"] None];
     stream_ending := Some model_error |}.

Definition example_context : ServiceContext :=
  {| history_uid := None;
     conf_uid := of_string "conf";
     human_name := of_string "Human";
     character_name := of_string "Mao";
     avatar := of_string "mao.png" |}.

Definition succeed {A} (a : A) (w : unit) : result A * unit := (Ok a, w).

(** Every collaborator returns. *)
Definition env_connected : Collaborators unit str unit str :=
  {| send_conversation_start_signals := succeed tt;
     process_user_input := fun user_input => succeed user_input;
     create_batch_input := fun input_text _ _ _ => input_text;
     store_message := fun _ _ _ _ _ _ => succeed tt;
     chat := fun _ => succeed failing_stream;
     websocket_send := fun _ => succeed tt;
     speak := fun _ _ => succeed tt;
     task_list := fun _ => true;
     gather := succeed tt;
     finalize_conversation_turn := fun _ => succeed tt;
     cleanup_conversation := fun w => w |}.

Definition disconnected : exn :=
  Exn ExceptionOther (of_string "WebSocket is not connected").

(** The client has gone: [websocket_send] raises. *)
Definition env_disconnected : Collaborators unit str unit str :=
  {| send_conversation_start_signals := succeed tt;
     process_user_input := fun user_input => succeed user_input;
     create_batch_input := fun input_text _ _ _ => input_text;
     store_message := fun _ _ _ _ _ _ => succeed tt;
     chat := fun _ => succeed failing_stream;
     websocket_send := fun _ w => (Raise disconnected, w);
     speak := fun _ _ => succeed tt;
     task_list := fun _ => true;
     gather := succeed tt;
     finalize_conversation_turn := fun _ => succeed tt;
     cleanup_conversation := fun w => w |}.

Definition cancelled : exn := Exn CancelledError [].

(** The turn is cancelled while the user's input is awaited. *)
Definition env_cancelled : Collaborators unit str unit str :=
  {| send_conversation_start_signals := succeed tt;
     process_user_input := fun _ w => (Raise cancelled, w);
     create_batch_input := fun input_text _ _ _ => input_text;
     store_message := fun _ _ _ _ _ _ => succeed tt;
     chat := fun _ => succeed failing_stream;
     websocket_send := fun _ => succeed tt;
     speak := fun _ _ => succeed tt;
     task_list := fun _ => true;
     gather := succeed tt;
     finalize_conversation_turn := fun _ => succeed tt;
     cleanup_conversation := fun w => w |}.

Definition example_turn (env : Collaborators unit str unit str)
  : result str * state unit :=
  process_single_conversation env example_context (of_string "uid")
    (of_string "hi") None None (start tt).

(** The state in which the draining of [failing_stream] raises. *)
Definition after_failure : state unit :=
  {| world := tt;
     log := [EvChat; EvRaised model_error];
     full_response := of_string "Hello[smile]friend.I'm good" |}.

(** *** Reading the log of a turn *)

(** A computation that only adds events of a given kind to the log. *)
Definition emits {World A : Type} (P : event -> Prop) (m : M World A)
  : Prop :=
  forall s, exists evs, log (snd (m s)) = log s ++ evs /\ Forall P evs.

(** A computation in which every exception that a call or an iteration
    raises is the one that the computation raises, or is an [Exception]
    for which an error event went to [websocket_send]. *)
Definition accounted {World A : Type} (m : M World A) : Prop :=
  forall s,
    exists evs,
      log (snd (m s)) = log s ++ evs
      /\ forall e,
           In (EvRaised e) evs ->
           fst (m s) = Raise e
           \/ (is_Exception e = true
               /\ In (EvSend (ErrorEvent (msg e))) evs).

(** The tool statuses of a list of items, and the texts that its
    sentences and audio items give, in order. *)
Definition statuses (l : list output_item) : list tool_status :=
  flat_map (fun i => match i with ToolStatus p => [p] | _ => [] end) l.

Definition texts (l : list output_item) : list str :=
  flat_map (fun i => match i with
                     | SentenceOutput ts _ => ts
                     | AudioOutput ts _ => ts
                     | _ => []
                     end) l.

(** [metadata and metadata.get("skip_history", False)]. *)
Definition skips_history (metadata : option Metadata) : bool :=
  match metadata with Some m => skip_history m | None => false end.

(** The events of the steps 1 to 4. *)
Definition before_finish (ev : event) : Prop :=
  match ev with
  | EvStartSignals | EvProcessUserInput | EvChat | EvRaised _ => True
  | EvStoreMessage role _ => role = of_string "human"
  | EvSend (ToolCallStatus _ _) | EvSend (ErrorEvent _) => True
  | _ => False
  end.

(** An agent that announces a tool call between two sentences. *)
Definition speaking_stream : agent_stream :=
  {| items := [SentenceOutput [of_string "One moment."] None;
               ToolStatus [(of_string "tool_name", of_string "get_weather")];
               Unexpected;
               AudioOutput [of_string " It is sunny. "; of_string "[smile]"] None];
     stream_ending := None |}.

Definition env_speaking : Collaborators unit str unit str :=
  {| send_conversation_start_signals := succeed tt;
     process_user_input := fun user_input => succeed user_input;
     create_batch_input := fun input_text _ _ _ => input_text;
     store_message := fun _ _ _ _ _ _ => succeed tt;
     chat := fun _ => succeed speaking_stream;
     websocket_send := fun _ => succeed tt;
     speak := fun _ _ => succeed tt;
     task_list := fun _ => true;
     gather := succeed tt;
     finalize_conversation_turn := fun _ => succeed tt;
     cleanup_conversation := fun w => w |}.

(** A context with a history, and a turn that asks to skip it. *)
Definition context_with_history : ServiceContext :=
  {| history_uid := Some (of_string "h1");
     conf_uid := of_string "conf";
     human_name := of_string "Human";
     character_name := of_string "Mao";
     avatar := of_string "mao.png" |}.

(** *** The steps of the turn *)

(** The same collaborators with another cleanup routine. *)
Definition with_cleanup {World UserInput Images BatchInput : Type}
  (f : World -> World)
  (env : Collaborators World UserInput Images BatchInput)
  : Collaborators World UserInput Images BatchInput :=
  {| send_conversation_start_signals := send_conversation_start_signals env;
     process_user_input := process_user_input env;
     create_batch_input := create_batch_input env;
     store_message := store_message env;
     chat := chat env;
     websocket_send := websocket_send env;
     speak := speak env;
     task_list := task_list env;
     gather := gather env;
     finalize_conversation_turn := finalize_conversation_turn env;
     cleanup_conversation := f |}.

Section Steps.

Variable World : Type.
Variable UserInput : Type.
Variable Images : Type.
Variable BatchInput : Type.
Variable env : Collaborators World UserInput Images BatchInput.
Variable context : ServiceContext.

(** Steps 1 to 3 of the function: the start signals, the user's input,
    the input of the model and the storing of the human message. *)
Definition steps_1_to_3 (user_input : UserInput) (images : option Images)
  (metadata : option Metadata) : M World BatchInput :=
  call EvStartSignals (send_conversation_start_signals env) ;;;
  input_text <- call EvProcessUserInput (process_user_input env user_input) ;;
  let batch_input :=
    create_batch_input env input_text images (human_name context) metadata in
  when (history_enabled context && negb (skips_history metadata))
    (call (EvStoreMessage (of_string "human") input_text)
       (store_message env (conf_uid context) (history_id context)
          (of_string "human") input_text (human_name context) None)) ;;;
  ret batch_input.

(** The world in which step 7 reads [tts_manager.task_list]: the one
    that [speak] leaves when the text is not empty, the one of step 5
    otherwise. *)
Definition after_speak (cleaned_response : str) (w : World) : World :=
  if truthy cleaned_response
  then snd (speak env cleaned_response
              {| text := cleaned_response;
                 display_name := character_name context;
                 display_avatar := avatar context |} w)
  else w.

End Steps.

(** A computation that sends no error event to the client and that
    every exception of a call leaves at once. *)
Definition fail_fast {World A : Type} (m : M World A) : Prop :=
  forall s,
    exists evs,
      log (snd (m s)) = log s ++ evs
      /\ (forall message, ~ In (EvSend (ErrorEvent message)) evs)
      /\ forall e, In (EvRaised e) evs -> fst (m s) = Raise e.

Definition returning {World A : Type} (a : A) (w : World)
  : result A * World := (Ok a, w).

(** A world that counts the runs of the cleanup routine, in a turn that
    is cancelled while the user's input is awaited. *)
Definition env_counting : Collaborators nat str unit str :=
  {| send_conversation_start_signals := returning tt;
     process_user_input := fun _ w => (Raise cancelled, w);
     create_batch_input := fun input_text _ _ _ => input_text;
     store_message := fun _ _ _ _ _ _ => returning tt;
     chat := fun _ => returning failing_stream;
     websocket_send := fun _ => returning tt;
     speak := fun _ _ => returning tt;
     task_list := fun _ => true;
     gather := returning tt;
     finalize_conversation_turn := fun _ => returning tt;
     cleanup_conversation := S |}.

Definition counting_turn : result str * state nat :=
  process_single_conversation env_counting example_context (of_string "uid")
    (of_string "hi") None None (start 0%nat).

(** A world that holds the number of TTS tasks: [speak] adds one, the
    cleanup routine clears them. *)
Definition env_tasks : Collaborators nat str unit str :=
  {| send_conversation_start_signals := returning tt;
     process_user_input := fun user_input => returning user_input;
     create_batch_input := fun input_text _ _ _ => input_text;
     store_message := fun _ _ _ _ _ _ => returning tt;
     chat := fun _ => returning speaking_stream;
     websocket_send := fun _ => returning tt;
     speak := fun _ _ w => (Ok tt, S w);
     task_list := fun w => (0 <? w)%nat;
     gather := returning tt;
     finalize_conversation_turn := fun _ => returning tt;
     cleanup_conversation := fun _ => 0%nat |}.

(** A turn with a history that the metadata ask to skip. *)
Definition tasks_turn : result str * state nat :=
  process_single_conversation env_tasks context_with_history
    (of_string "uid") (of_string "hi") None
    (Some {| skip_history := true |}) (start 0%nat).

End Turn.

(* ================================================================= *)
(** ** Speech synthesis client: [TTSEngine.generate_audio] *)

Module TTS.
Import Py.

(** A match of [\[.*?\]] that starts at the head of [t]: the text that
    follows the match. *)
Definition annotation_at (t : str) : option str :=
  match t with
  | c :: r => if (c =? LBRACKET)%N then Normalizer.after_close r else None
  | [] => None
  end.

(** [re.sub(r"\[.*?\]", "", text)]: the leftmost match is dropped and
    the scan goes on after it; where no match starts, the code point is
    copied. *)
Fixpoint remove_annotations_fuel (n : nat) (t : str) : str :=
  match n with
  | O => []
  | S n' =>
      match annotation_at t with
      | Some rest => remove_annotations_fuel n' rest
      | None =>
          match t with
          | [] => []
          | c :: r => c :: remove_annotations_fuel n' r
          end
      end
  end.

Definition remove_annotations (t : str) : str :=
  remove_annotations_fuel (S (List.length t)) t.

(** No ['['] is closed by a [']'] on its line: [\[.*?\]] matches
    nowhere. *)
Fixpoint no_closed_annotation (t : str) : Prop :=
  match t with
  | [] => True
  | c :: r =>
      (c = LBRACKET -> Normalizer.after_close r = None)
      /\ no_closed_annotation r
  end.

(** The instance, as [__init__] stores it. *)
Record TTSEngine := {
  api_url : str;
  text_lang : str;
  ref_audio_path : str;
  prompt_lang : str;
  prompt_text : str;
  text_split_method : str;
  batch_size : str;
  media_type : str;
  streaming_mode : str
}.

(** The JSON body of the request. *)
Record payload := {
  refer_wav_path : str;
  payload_prompt_text : str;
  prompt_language : str;
  payload_text : str;
  text_language : str
}.

(** What [requests.post] returns: the status and the body. *)
Record Response := {
  status_code : Z;
  content : list N
}.

(** [Response.raise_for_status] of [requests] raises [HTTPError] on the
    client and server error statuses, 400 to 599. *)
Definition is_error_status (status : Z) : bool :=
  ((400 <=? status) && (status <? 600))%Z.

(** How a call of [generate_audio] ends. *)
Inductive outcome :=
| Returned (file_name : option str)
| HTTPError (status : Z)
| Raised (e : exn).

(** What a call of [generate_audio] does to the outside. *)
Inductive effect :=
| Post (url : str) (body : payload)
| Write (file_name : str) (data : list N).

Section GenerateAudio.

(** [requests.post], the writing of a file ([open] and [write]), and
    [generate_cache_file_name] of [TTSInterface], which is not among the
    sources. *)
Variable post : str -> payload -> result Response.
Variable write_file : str -> list N -> result unit.
Variable generate_cache_file_name : option str -> str -> str.

Definition generate_audio (self : TTSEngine) (text : str)
  (file_name_no_ext : option str) : outcome * list effect :=
  let file_name :=
    generate_cache_file_name file_name_no_ext (media_type self) in
  let cleaned_text := remove_annotations text in
  let payload :=
    {| refer_wav_path := ref_audio_path self;
       payload_prompt_text := prompt_text self;
       prompt_language := prompt_lang self;
       payload_text := cleaned_text;
       text_language := text_lang self |} in
  match post (api_url self) payload with
  | Raise e => (Raised e, [Post (api_url self) payload])
  | Ok resp =>
      if is_error_status (status_code resp)
      then (HTTPError (status_code resp), [Post (api_url self) payload])
      else if (status_code resp =? 200)%Z
      then
        match write_file file_name (content resp) with
        | Ok _ =>
            (Returned (Some file_name),
             [Post (api_url self) payload;
              Write file_name (content resp)])
        | Raise e =>
            (Raised e,
             [Post (api_url self) payload;
              Write file_name (content resp)])
        end
      else (Returned None, [Post (api_url self) payload])
  end.

End GenerateAudio.

End TTS.

(* ================================================================= *)
(** ** Properties of [clean_response] *)

Module NormalizerFacts.
Import Py Normalizer.

(** *** Unit checks *)

Example clean_response_annotation :
  clean_response (of_string "Hello[annotation]world")
  = of_string "Hello world".
Proof. vm_compute. reflexivity. Qed.

Example clean_response_sentence :
  clean_response (of_string "Hello[smile]friend.I'm good")
  = of_string "Hello friend. I'm good".
Proof. vm_compute. reflexivity. Qed.

Example clean_response_nested :
  clean_response (of_string " x [a] [b]  y[[c]]") = of_string "x y ]".
Proof. vm_compute. reflexivity. Qed.

(** *** Basic facts on the character classes *)

Lemma punct_not_space c : is_punct c = true -> isspace c = false.
Proof.
  unfold is_punct. intros H.
  repeat (apply orb_true_iff in H; destruct H as [H | H]);
    apply N.eqb_eq in H; subst c; reflexivity.
Qed.

Lemma space_is_space : isspace SPACE = true.
Proof. reflexivity. Qed.

Lemma bracket_not_space c :
  c = LBRACKET \/ c = RBRACKET -> isspace c = false.
Proof. intros [-> | ->]; reflexivity. Qed.

(** *** [lstrip], [rstrip] and [strip] *)

Lemma lstrip_starts_clean t : starts_clean (lstrip t).
Proof.
  induction t as [| c r IH]; simpl; [exact I |].
  destruct (isspace c) eqn:E; [exact IH | exact E].
Qed.

Lemma lstrip_fixed t : starts_clean t -> lstrip t = t.
Proof. destruct t as [| c r]; simpl; [reflexivity | intros ->; reflexivity]. Qed.

Lemma lstrip_idem t : lstrip (lstrip t) = lstrip t.
Proof. apply lstrip_fixed, lstrip_starts_clean. Qed.

Lemma lstrip_split t :
  exists ws, t = ws ++ lstrip t /\ Forall (fun c => isspace c = true) ws.
Proof.
  induction t as [| c r [ws [E F]]]; simpl.
  - exists []. split; [reflexivity | constructor].
  - destruct (isspace c) eqn:Ec.
    + exists (c :: ws). split; [simpl; congruence | constructor; assumption].
    + exists []. split; [reflexivity | constructor].
Qed.

Lemma rstrip_split t :
  exists ws, t = rstrip t ++ ws /\ Forall (fun c => isspace c = true) ws.
Proof.
  unfold rstrip. destruct (lstrip_split (rev t)) as [ws [E F]].
  exists (rev ws). split.
  - rewrite <- rev_app_distr, <- E, rev_involutive. reflexivity.
  - apply Forall_rev. exact F.
Qed.

Lemma strip_split t :
  exists a b, t = a ++ strip t ++ b
              /\ Forall (fun c => isspace c = true) a
              /\ Forall (fun c => isspace c = true) b.
Proof.
  destruct (lstrip_split t) as [a [Ea Fa]].
  destruct (rstrip_split (lstrip t)) as [b [Eb Fb]].
  exists a, b. unfold strip. rewrite <- Eb. auto.
Qed.

Lemma rstrip_starts_clean t : starts_clean t -> starts_clean (rstrip t).
Proof.
  intros H. destruct (rstrip_split t) as [ws [E _]].
  destruct (rstrip t) as [| c r] eqn:Er; simpl; [exact I |].
  rewrite E in H. exact H.
Qed.

Lemma strip_trimmed t : trimmed (strip t).
Proof.
  split.
  - apply lstrip_fixed. unfold strip.
    apply rstrip_starts_clean, lstrip_starts_clean.
  - unfold strip, rstrip. rewrite rev_involutive. apply lstrip_idem.
Qed.

Lemma strip_fixed t : trimmed t -> strip t = t.
Proof.
  intros [H1 H2]. unfold strip, rstrip.
  rewrite H1, H2. apply rev_involutive.
Qed.

(** *** Whitespace collapsing *)

Lemma collapse_true_starts_clean t : starts_clean (collapse_from true t).
Proof.
  induction t as [| c r IH]; simpl; [exact I |].
  destruct (isspace c) eqn:E; [exact IH | exact E].
Qed.

Lemma collapse_single_spaced b t : single_spaced (collapse_from b t).
Proof.
  revert b. induction t as [| c r IH]; intros b; simpl; [exact I |].
  destruct (isspace c) eqn:E.
  - destruct b; [apply IH |]. simpl. split; [| apply IH].
    intros _. split; [reflexivity | apply collapse_true_starts_clean].
  - simpl. split; [| apply IH]. congruence.
Qed.

Lemma collapse_fixed b t :
  single_spaced t -> (b = true -> starts_clean t) ->
  collapse_from b t = t.
Proof.
  revert b. induction t as [| c r IH]; intros b H Hb; simpl; [reflexivity |].
  destruct H as [Hc Hr]. destruct (isspace c) eqn:E.
  - destruct b.
    + specialize (Hb eq_refl). simpl in Hb. congruence.
    + destruct (Hc eq_refl) as [-> Hs]. f_equal. apply IH; auto.
  - f_equal. apply IH; [exact Hr | discriminate].
Qed.

Lemma single_spaced_app_r a b : single_spaced (a ++ b) -> single_spaced b.
Proof. induction a as [| c a IH]; simpl; [auto | intros [_ H]; auto]. Qed.

Lemma starts_clean_app_l a b : starts_clean (a ++ b) -> starts_clean a.
Proof. destruct a; simpl; auto. Qed.

Lemma single_spaced_app_l a b : single_spaced (a ++ b) -> single_spaced a.
Proof.
  induction a as [| c a IH]; simpl; [auto |].
  intros [Hc H]. split; [| auto].
  intros E. destruct (Hc E) as [-> Hs]. split; [reflexivity |].
  eapply starts_clean_app_l; eauto.
Qed.

Lemma strip_single_spaced t : single_spaced t -> single_spaced (strip t).
Proof.
  intros H. destruct (strip_split t) as [a [b [E _]]]. rewrite E in H.
  apply single_spaced_app_r in H. apply single_spaced_app_l in H. exact H.
Qed.

(** *** What the three passes leave untouched: the non-whitespace
    code points and their order *)

Lemma non_ws_lstrip t : non_ws (lstrip t) = non_ws t.
Proof.
  induction t as [| c r IH]; simpl; [reflexivity |].
  destruct (isspace c) eqn:E; simpl; [exact IH | rewrite E; reflexivity].
Qed.

Lemma non_ws_rev t : non_ws (rev t) = rev (non_ws t).
Proof.
  unfold non_ws. induction t as [| c r IH]; simpl; [reflexivity |].
  rewrite filter_app, IH. simpl.
  destruct (isspace c); simpl; [apply app_nil_r | reflexivity].
Qed.

Lemma non_ws_strip t : non_ws (strip t) = non_ws t.
Proof.
  unfold strip, rstrip.
  rewrite non_ws_rev, non_ws_lstrip, non_ws_rev, rev_involutive.
  apply non_ws_lstrip.
Qed.

Lemma non_ws_collapse b t : non_ws (collapse_from b t) = non_ws t.
Proof.
  revert b. induction t as [| c r IH]; intros b; simpl; [reflexivity |].
  destruct (isspace c) eqn:E; simpl.
  - destruct b; simpl; apply IH.
  - rewrite E. simpl. f_equal. apply IH.
Qed.

(** Induction two code points at a time, as [space_after_punct]
    recurses. *)
Lemma str_pair_ind (P : str -> Prop) :
  P [] -> (forall c, P [c]) ->
  (forall c d r, P r -> P (d :: r) -> P (c :: d :: r)) ->
  forall t, P t.
Proof.
  intros H0 H1 H2 t.
  assert (H : P t /\ forall c, P (c :: t)).
  { induction t as [| d r [IHa IHb]]; split; auto. }
  apply H.
Qed.

Lemma non_ws_cons c t :
  non_ws (c :: t) = if isspace c then non_ws t else c :: non_ws t.
Proof. unfold non_ws. simpl. destruct (isspace c); reflexivity. Qed.

Lemma space_after_punct_cons2 c d r :
  space_after_punct (c :: d :: r)
  = if is_punct c && negb (isspace d)
    then c :: SPACE :: d :: space_after_punct r
    else c :: space_after_punct (d :: r).
Proof. reflexivity. Qed.

Lemma non_ws_space_after_punct t :
  non_ws (space_after_punct t) = non_ws t.
Proof.
  induction t as [| c | c d r IHr IHd] using str_pair_ind;
    try reflexivity.
  rewrite space_after_punct_cons2.
  destruct (is_punct c && negb (isspace d)).
  - rewrite !non_ws_cons, space_is_space, IHr. reflexivity.
  - rewrite (non_ws_cons c (space_after_punct _)), IHd.
    rewrite (non_ws_cons c (d :: r)). reflexivity.
Qed.

(** *** Punctuation spacing *)

Lemma space_after_punct_fixed t : punct_spaced t -> space_after_punct t = t.
Proof.
  induction t as [| c r IH]; [reflexivity |].
  destruct r as [| d r']; [reflexivity |].
  intros [Hc Hr]. rewrite space_after_punct_cons2.
  destruct (is_punct c) eqn:Ec; simpl.
  - rewrite (Hc eq_refl). simpl. f_equal. apply IH, Hr.
  - f_equal. apply IH, Hr.
Qed.

Lemma space_after_punct_head d r :
  exists r', space_after_punct (d :: r) = d :: r'.
Proof.
  destruct r as [| e r']; [exists []; reflexivity |].
  rewrite space_after_punct_cons2.
  destruct (is_punct d && negb (isspace e)); eexists; reflexivity.
Qed.

Lemma space_after_punct_spaced t :
  no_crowded_punct t -> punct_spaced (space_after_punct t).
Proof.
  induction t as [| c | c d r IHr IHd] using str_pair_ind;
    [intros _; exact I | intros _; simpl; auto |].
  intros [Hcd Hd]. rewrite space_after_punct_cons2.
  destruct (is_punct c && negb (isspace d)) eqn:E.
  - apply andb_true_iff in E. destruct E as [Ec _].
    assert (Hr : no_crowded_punct r) by (destruct Hd; assumption).
    specialize (IHr Hr).
    simpl. repeat split; auto.
    + discriminate.
    + destruct r as [| e r']; [exact I |].
      destruct (space_after_punct_head e r') as [x ->].
      exact (Hcd Ec).
  - specialize (IHd Hd).
    destruct (space_after_punct_head d r) as [r' Er].
    rewrite Er in *. simpl. split; [| exact IHd].
    intros Ec. rewrite Ec in E. simpl in E.
    apply negb_false_iff in E. exact E.
Qed.

Lemma collapse_false_head c r :
  isspace c = true ->
  exists r', collapse_from false (c :: r) = SPACE :: r'.
Proof. intros E. simpl. rewrite E. eexists; reflexivity. Qed.

Lemma collapse_punct_spaced b t :
  punct_spaced t -> punct_spaced (collapse_from b t).
Proof.
  revert b. induction t as [| c r IH]; intros b; [intros _; exact I |].
  intros [Hc Hr]. simpl collapse_from. destruct (isspace c) eqn:E.
  - destruct b; [apply IH, Hr |].
    specialize (IH true Hr). simpl. split; [| exact IH].
    destruct (collapse_from true r); [exact I | discriminate].
  - specialize (IH false Hr). simpl. split; [| exact IH].
    destruct r as [| d r']; [exact I |].
    destruct (is_punct c) eqn:Ec.
    + destruct (collapse_false_head d r' (Hc eq_refl)) as [x Ex].
      rewrite Ex. reflexivity.
    + destruct (collapse_from false (d :: r')); [exact I | discriminate].
Qed.

Lemma punct_spaced_app_r a b : punct_spaced (a ++ b) -> punct_spaced b.
Proof. induction a as [| c a IH]; simpl; [auto | intros [_ H]; auto]. Qed.

Lemma punct_spaced_app_l a b : punct_spaced (a ++ b) -> punct_spaced a.
Proof.
  induction a as [| c a IH]; simpl; [auto |].
  intros [Hc H]. split; [| auto].
  destruct a as [| d a']; [exact I | exact Hc].
Qed.

Lemma strip_punct_spaced t : punct_spaced t -> punct_spaced (strip t).
Proof.
  intros H. destruct (strip_split t) as [a [b [E _]]]. rewrite E in H.
  apply punct_spaced_app_r in H. apply punct_spaced_app_l in H. exact H.
Qed.

(** *** Bracketed annotations *)

Lemma after_close_In t r : after_close t = Some r -> In RBRACKET t.
Proof.
  induction t as [| c t IH]; simpl; [discriminate |].
  destruct (N.eqb_spec c RBRACKET); [auto |].
  destruct (N.eqb_spec c NEWLINE); [discriminate | auto].
Qed.

Lemma after_close_across_lines t :
  after_close t = None -> In RBRACKET t -> closes_after_newline t.
Proof.
  induction t as [| c t IH]; simpl; [tauto |].
  destruct (N.eqb_spec c RBRACKET); [discriminate |].
  destruct (N.eqb_spec c NEWLINE) as [-> | Hn].
  - intros _ [E | Hin]; [discriminate | left; auto].
  - intros H [E | Hin]; [congruence | right; auto].
Qed.

Lemma closes_after_newline_In t : closes_after_newline t -> In NEWLINE t.
Proof.
  induction t as [| c t IH]; simpl; [tauto |].
  intros [[-> _] | H]; [left; reflexivity | right; auto].
Qed.

(** A text of one line has its annotations on one line. *)
Lemma one_line_annotations t : ~ In NEWLINE t -> annotations_on_one_line t.
Proof.
  induction t as [| c t IH]; simpl; [tauto |].
  intros H. split.
  - intros _ Hc. apply H. right. apply closes_after_newline_In, Hc.
  - apply IH. tauto.
Qed.

Lemma annotations_on_one_line_app_r a b :
  annotations_on_one_line (a ++ b) -> annotations_on_one_line b.
Proof. induction a as [| c a IH]; simpl; [auto | intros [_ H]; auto]. Qed.

Lemma after_close_suffix t r :
  after_close t = Some r -> exists pre, t = pre ++ r /\ pre <> [].
Proof.
  revert r. induction t as [| c t IH]; simpl; intros r; [discriminate |].
  destruct (N.eqb_spec c RBRACKET).
  - intros [= <-]. exists [c]. split; [reflexivity | discriminate].
  - destruct (N.eqb_spec c NEWLINE); [discriminate |].
    intros H. destruct (IH _ H) as [pre [-> _]].
    exists (c :: pre). split; [reflexivity | discriminate].
Qed.

Lemma annotation_at_suffix t rest :
  annotation_at t = Some rest -> exists pre, t = pre ++ rest /\ pre <> [].
Proof.
  unfold annotation_at. destruct (lstrip_split t) as [ws [E _]].
  destruct (lstrip t) as [| c r]; [discriminate |].
  destruct (N.eqb_spec c LBRACKET); [| discriminate].
  destruct (after_close r) as [x |] eqn:Ex; [| discriminate].
  intros [= <-]. destruct (after_close_suffix _ Ex) as [pre [-> _]].
  destruct (lstrip_split x) as [ws' [E' _]].
  exists (ws ++ c :: pre ++ ws'). split.
  - rewrite E at 1. rewrite E' at 1.
    rewrite <- !app_assoc. simpl. rewrite <- !app_assoc. reflexivity.
  - destruct ws; discriminate.
Qed.

Lemma annotation_at_shorter t rest :
  annotation_at t = Some rest -> (List.length rest < List.length t)%nat.
Proof.
  intros H. destruct (annotation_at_suffix _ H) as [pre [-> Hp]].
  rewrite length_app. destruct pre; [congruence | simpl; lia].
Qed.

Lemma strip_annotations_fuel_enough n m t :
  (List.length t < n)%nat -> (List.length t < m)%nat ->
  strip_annotations_fuel n t = strip_annotations_fuel m t.
Proof.
  revert m t. induction n as [| n IH]; intros m t Hn Hm; [lia |].
  destruct m as [| m]; [lia |]. simpl.
  destruct (annotation_at t) as [rest |] eqn:E.
  - apply annotation_at_shorter in E. f_equal. apply IH; lia.
  - destruct t as [| c r]; [reflexivity |]. simpl in Hn, Hm.
    f_equal. apply IH; lia.
Qed.

(** The equation of the scan, free of fuel. *)
Lemma strip_annotations_eq t :
  strip_annotations t
  = match annotation_at t with
    | Some rest => SPACE :: strip_annotations rest
    | None =>
        match t with
        | [] => []
        | c :: r => c :: strip_annotations r
        end
    end.
Proof.
  unfold strip_annotations at 1. simpl.
  destruct (annotation_at t) as [rest |] eqn:E.
  - f_equal. apply annotation_at_shorter in E.
    apply strip_annotations_fuel_enough; lia.
  - destruct t as [| c r]; [reflexivity |]. f_equal.
Qed.

(** Induction along the scan. *)
Lemma strip_annotations_scan_ind (P : str -> str -> Prop) :
  P [] [] ->
  (forall t rest, annotation_at t = Some rest ->
                  P rest (strip_annotations rest) ->
                  P t (SPACE :: strip_annotations rest)) ->
  (forall c r, annotation_at (c :: r) = None ->
               P r (strip_annotations r) ->
               P (c :: r) (c :: strip_annotations r)) ->
  forall t, P t (strip_annotations t).
Proof.
  intros H0 Hm Hc t.
  remember (List.length t) as n eqn:En. revert t En.
  induction n as [n IH] using lt_wf_ind. intros t En.
  rewrite strip_annotations_eq.
  destruct (annotation_at t) as [rest |] eqn:E.
  - apply Hm; [exact E |]. apply annotation_at_shorter in E.
    eapply IH; [| reflexivity]. lia.
  - destruct t as [| c r]; [exact H0 |].
    apply Hc; [exact E |]. eapply IH; [| reflexivity]. simpl in En. lia.
Qed.

Lemma no_bracket_pair_app_r a b :
  no_bracket_pair (a ++ b) -> no_bracket_pair b.
Proof. induction a as [| c a IH]; simpl; [auto | intros [_ H]; auto]. Qed.

Lemma annotation_at_no_pair t : no_bracket_pair t -> annotation_at t = None.
Proof.
  intros H. unfold annotation_at.
  destruct (lstrip_split t) as [ws [E _]]. rewrite E in H.
  apply no_bracket_pair_app_r in H.
  destruct (lstrip t) as [| c r]; [reflexivity |].
  destruct (N.eqb_spec c LBRACKET) as [Ec |]; [| reflexivity].
  destruct H as [H _]. specialize (H Ec).
  destruct (after_close r) as [x |] eqn:Ex; [| reflexivity].
  apply after_close_In in Ex. contradiction.
Qed.

Lemma strip_annotations_fixed t :
  no_bracket_pair t -> strip_annotations t = t.
Proof.
  induction t as [| c r IH]; intros H; rewrite strip_annotations_eq.
  - reflexivity.
  - rewrite (annotation_at_no_pair _ H). f_equal. apply IH, H.
Qed.

Lemma strip_annotations_In t :
  forall c, In c (strip_annotations t) -> c = SPACE \/ In c t.
Proof.
  apply (strip_annotations_scan_ind
           (fun t out => forall c, In c out -> c = SPACE \/ In c t)).
  - intros c [].
  - intros t0 rest E IH c [<- | Hin]; [auto |].
    destruct (annotation_at_suffix _ E) as [pre [-> _]].
    destruct (IH _ Hin); [auto | right; apply in_or_app; auto].
  - intros d r _ IH c [<- | Hin]; [right; left; reflexivity |].
    destruct (IH _ Hin); [auto | right; right; assumption].
Qed.

Lemma strip_annotations_no_pair t :
  annotations_on_one_line t -> no_bracket_pair (strip_annotations t).
Proof.
  apply (strip_annotations_scan_ind
           (fun t out => annotations_on_one_line t -> no_bracket_pair out)).
  - intros _. exact I.
  - intros t0 rest E IH Hn.
    destruct (annotation_at_suffix _ E) as [pre [-> _]].
    simpl. split; [discriminate |].
    apply IH. apply annotations_on_one_line_app_r in Hn. exact Hn.
  - intros c r E IH [Hc Hr]. simpl. split; [| apply IH, Hr].
    intros ->. unfold annotation_at in E. simpl in E.
    destruct (after_close r) eqn:Er; [discriminate |].
    intros Hin. apply strip_annotations_In in Hin.
    destruct Hin as [Hs | Hin]; [discriminate |].
    apply (Hc eq_refl). apply after_close_across_lines; assumption.
Qed.

(** A text without a bracket pair across a line feed has its pairs
    closed on their lines; the converse fails on two annotations on two
    lines. *)
Lemma one_line_closed_on_line t :
  annotations_on_one_line t -> annotations_closed_on_line t.
Proof.
  induction t as [| c r IH]; simpl; [tauto |].
  intros [Hc Hr]. split; [| apply IH, Hr].
  intros E Hin Hn. apply (Hc E). apply after_close_across_lines; assumption.
Qed.

Lemma annotations_closed_on_line_app_r a b :
  annotations_closed_on_line (a ++ b) -> annotations_closed_on_line b.
Proof. induction a as [| c a IH]; simpl; [auto | intros [_ H]; auto]. Qed.

(** The ['['] that the scan copies is one that no [']'] closes on its
    line, hence none at all. *)
Lemma strip_annotations_no_pair_closed t :
  annotations_closed_on_line t -> no_bracket_pair (strip_annotations t).
Proof.
  apply (strip_annotations_scan_ind
           (fun t out => annotations_closed_on_line t -> no_bracket_pair out)).
  - intros _. exact I.
  - intros t0 rest E IH Hn.
    destruct (annotation_at_suffix _ E) as [pre [-> _]].
    simpl. split; [discriminate |].
    apply IH. apply annotations_closed_on_line_app_r in Hn. exact Hn.
  - intros c r E IH [Hc Hr]. simpl. split; [| apply IH, Hr].
    intros ->. unfold annotation_at in E. simpl in E.
    destruct (after_close r) eqn:Er; [discriminate |].
    intros Hin. apply strip_annotations_In in Hin.
    destruct Hin as [Hs | Hin]; [discriminate |].
    exact (Hc eq_refl Hin eq_refl).
Qed.

Lemma no_crowded_punct_app_r a b :
  no_crowded_punct (a ++ b) -> no_crowded_punct b.
Proof. induction a as [| c a IH]; simpl; [auto | intros [_ H]; auto]. Qed.

(** How the result of the scan starts: with the space that replaces a
    match, or with the first code point of the text. *)
Lemma strip_annotations_head t :
  match strip_annotations t with
  | [] => True
  | h :: o =>
      h = SPACE \/ exists r, t = h :: r /\ o = strip_annotations r
  end.
Proof.
  rewrite strip_annotations_eq.
  destruct (annotation_at t); [left; reflexivity |].
  destruct t as [| c r]; [exact I |].
  right. exists r. split; reflexivity.
Qed.

Lemma strip_annotations_no_crowded_punct t :
  no_crowded_punct t -> no_crowded_punct (strip_annotations t).
Proof.
  apply (strip_annotations_scan_ind
           (fun t out => no_crowded_punct t -> no_crowded_punct out)).
  - intros _. exact I.
  - intros t0 rest E IH H.
    destruct (annotation_at_suffix _ E) as [pre [-> _]].
    apply no_crowded_punct_app_r in H. specialize (IH H).
    simpl. split; [| exact IH].
    destruct (strip_annotations rest) as [| d [| e o]]; try exact I.
    discriminate.
  - intros c r _ IH [Hc Hr]. specialize (IH Hr).
    simpl. split; [| exact IH].
    pose proof (strip_annotations_head r) as H1.
    destruct (strip_annotations r) as [| d o]; [exact I |].
    destruct o as [| e o']; [exact I |].
    intros Pc Pd.
    destruct H1 as [-> | (r' & -> & Eo)]; [discriminate |].
    pose proof (strip_annotations_head r') as H2. rewrite <- Eo in H2.
    destruct H2 as [-> | (r'' & -> & _)]; [reflexivity |].
    exact (Hc Pc Pd).
Qed.

Lemma no_bracket_pair_non_ws t :
  no_bracket_pair (non_ws t) <-> no_bracket_pair t.
Proof.
  induction t as [| c r IH]; [tauto |].
  assert (Hin : In RBRACKET (non_ws r) <-> In RBRACKET r).
  { unfold non_ws. rewrite filter_In. intuition. }
  rewrite non_ws_cons. destruct (isspace c) eqn:E; simpl.
  - rewrite IH. split; [| tauto]. intros H. split; [| exact H].
    intros ->. discriminate.
  - rewrite IH, Hin. tauto.
Qed.

(** *** Fixed points of [clean_response] *)

Lemma clean_response_fixed t : normal_form t -> clean_response t = t.
Proof.
  intros (Hb & Hp & Hs & Ht). unfold clean_response.
  rewrite (strip_annotations_fixed _ Hb), (space_after_punct_fixed _ Hp).
  unfold collapse_whitespace.
  rewrite (collapse_fixed (b := false) _ Hs) by discriminate.
  apply strip_fixed, Ht.
Qed.

Lemma clean_response_normal_form x :
  annotations_closed_on_line x -> no_crowded_punct x ->
  normal_form (clean_response x).
Proof.
  intros Hn Ha. unfold clean_response, collapse_whitespace.
  repeat split.
  - apply no_bracket_pair_non_ws.
    rewrite non_ws_strip, non_ws_collapse, non_ws_space_after_punct.
    apply no_bracket_pair_non_ws, strip_annotations_no_pair_closed, Hn.
  - apply strip_punct_spaced, collapse_punct_spaced,
      space_after_punct_spaced, strip_annotations_no_crowded_punct, Ha.
  - apply strip_single_spaced, collapse_single_spaced.
  - apply strip_trimmed.
  - apply strip_trimmed.
Qed.

(** C7, as the code has it by design. On ["Wait...what?Really"] a
    space is inserted after the ['?'], and also after the first and the
    third dot: a dot that another dot follows is matched by
    [([,\.!?;:])([^\s])] like any other mark, and the third dot is matched
    with ['w'].  Nothing but whitespace is inserted.  What follows the
    second dot is left open. *)
Theorem clean_response_ellipsis :
  exists gap,
    (forall c, In c gap -> isspace c = true)
    /\ clean_response (of_string "Wait...what?Really")
       = of_string "Wait. ." ++ gap ++ of_string ". what? Really".
Proof.
  exists []. split; [intros c [] | vm_compute; reflexivity].
Qed.

(** C7, as the specification words it: the result differs from
    ["Wait...what? Really"], the first dot has been given a space. *)
Lemma clean_response_ellipsis_spaced :
  clean_response (of_string "Wait...what?Really")
  = of_string "Wait. .. what? Really"
  /\ clean_response (of_string "Wait...what?Really")
     <> of_string "Wait...what? Really".
Proof. split; vm_compute; [reflexivity | discriminate]. Qed.

(** [clean_response] is idempotent on every text in which each ['[']
    that has a [']'] after it has one on its own line, and in which no
    two adjacent punctuation marks of [,.!?;:] are followed by a
    non-whitespace code point: the result is then in normal form. *)
Theorem clean_response_idempotent (x : str) :
  annotations_closed_on_line x -> no_crowded_punct x ->
  clean_response (clean_response x) = clean_response x.
Proof.
  intros Hn Ha. apply clean_response_fixed, clean_response_normal_form; assumption.
Qed.

Lemma clean_response_idempotent_witness :
  let x := of_string "Really?! [nod]" ++ [NEWLINE]
           ++ of_string "Hello[smile]friend.I'm [wave] good" in
  annotations_closed_on_line x /\ no_crowded_punct x
  /\ clean_response x = of_string "Really? ! Hello friend. I'm good"
  /\ clean_response (clean_response x) = clean_response x.
Proof.
  intros x.
  assert (Hn : annotations_closed_on_line x).
  { vm_compute. repeat split; intros E; try discriminate E;
      intros _; discriminate. }
  assert (Ha : no_crowded_punct x).
  { vm_compute. repeat split; intros; try reflexivity; discriminate. }
  exact (conj Hn (conj Ha (conj eq_refl
                             (clean_response_idempotent x Hn Ha)))).
Defined.

(** C6. On ["a..b"] the code is not idempotent, and misses what its
    docstring states (a space after punctuation where it is missing): the
    punctuation pass matches the two dots together and resumes after the
    second one, which is left without a space before ['b'].  The result
    ["a. .b"] has a mark that no whitespace follows, and a second
    application gives ["a. . b"]. *)
Theorem clean_response_not_idempotent :
  clean_response (of_string "a..b") = of_string "a. .b"
  /\ (punct_spaced (clean_response (of_string "a..b")) -> False)
  /\ clean_response (clean_response (of_string "a..b")) = of_string "a. . b"
  /\ clean_response (clean_response (of_string "a..b"))
     <> clean_response (of_string "a..b").
Proof.
  split; [vm_compute; reflexivity |]. split.
  - vm_compute. intros (_ & _ & _ & H & _). discriminate (H eq_refl).
  - split; vm_compute; [reflexivity | discriminate].
Qed.

(** A bracket pair that spans a line feed is kept by one application,
    which turns the line feed into a space, and is stripped by a second
    one. *)
Lemma clean_response_annotation_across_lines :
  clean_response [LBRACKET; 97%N; NEWLINE; RBRACKET]
  = [LBRACKET; 97%N; SPACE; RBRACKET]
  /\ clean_response (clean_response [LBRACKET; 97%N; NEWLINE; RBRACKET])
     = [].
Proof. split; vm_compute; reflexivity. Qed.

(** *** What [clean_response] guarantees on every text *)

Lemma trimmed_starts_clean t :
  trimmed t -> starts_clean t /\ starts_clean (rev t).
Proof.
  intros [H1 H2]. split.
  - rewrite <- H1. apply lstrip_starts_clean.
  - rewrite <- H2. apply lstrip_starts_clean.
Qed.

(** Whatever the text, the result neither starts nor ends with a
    whitespace, and every whitespace in it is one [' '] that a
    non-whitespace code point follows. *)
Theorem clean_response_whitespace x :
  starts_clean (clean_response x)
  /\ starts_clean (rev (clean_response x))
  /\ single_spaced (clean_response x).
Proof.
  unfold clean_response, collapse_whitespace.
  destruct (trimmed_starts_clean
              (strip_trimmed
                 (collapse_from false
                    (space_after_punct (strip_annotations x)))))
    as [H1 H2].
  split; [exact H1 |]. split; [exact H2 |].
  apply strip_single_spaced, collapse_single_spaced.
Qed.

Lemma no_lbracket_no_pair t : ~ In LBRACKET t -> no_bracket_pair t.
Proof.
  induction t as [| c t IH]; simpl; [tauto |].
  intros H. split; [| apply IH; tauto].
  intros ->. elim H. left. reflexivity.
Qed.

(** The three passes only touch whitespace once the annotations are
    gone. *)
Lemma non_ws_clean_response x :
  non_ws (clean_response x) = non_ws (strip_annotations x).
Proof.
  unfold clean_response, collapse_whitespace.
  rewrite non_ws_strip, non_ws_collapse, non_ws_space_after_punct.
  reflexivity.
Qed.

(** On a text without ['['] nothing but whitespace is added or removed:
    the non-whitespace code points of the result are those of the text,
    in the same order. *)
Theorem clean_response_keeps_text x :
  ~ In LBRACKET x -> non_ws (clean_response x) = non_ws x.
Proof.
  intros H. rewrite non_ws_clean_response.
  rewrite (strip_annotations_fixed _ (no_lbracket_no_pair _ H)).
  reflexivity.
Qed.

Lemma clean_response_keeps_text_witness :
  let x := of_string "  Hello ,world.How  are you?  " in
  clean_response x = of_string "Hello , world. How are you?"
  /\ non_ws (clean_response x) = non_ws x.
Proof.
  intros x. split; [reflexivity |].
  apply clean_response_keeps_text. vm_compute. intuition discriminate.
Defined.

Lemma non_ws_nil_all_space t :
  non_ws t = [] -> starts_clean t -> t = [].
Proof.
  destruct t as [| c r]; [reflexivity |].
  rewrite non_ws_cons. simpl. intros H E. rewrite E in H. discriminate.
Qed.

Lemma all_space_non_ws t :
  (forall c, In c t -> isspace c = true) -> non_ws t = [].
Proof.
  induction t as [| c t IH]; [reflexivity |].
  intros H. rewrite non_ws_cons, (H c (or_introl eq_refl)).
  apply IH. intros d Hd. apply H. right. exact Hd.
Qed.

(** A text of whitespace only, the empty text included, is cleaned to
    the empty text. *)
Theorem clean_response_blank x :
  (forall c, In c x -> isspace c = true) -> clean_response x = [].
Proof.
  intros H. apply non_ws_nil_all_space.
  - assert (Hn : ~ In LBRACKET x).
    { intros Hin. specialize (H _ Hin). discriminate. }
    rewrite non_ws_clean_response.
    rewrite (strip_annotations_fixed _ (no_lbracket_no_pair _ Hn)).
    apply all_space_non_ws, H.
  - unfold clean_response, collapse_whitespace.
    apply (proj1 (trimmed_starts_clean (strip_trimmed _))).
Qed.

Lemma clean_response_blank_witness :
  clean_response [SPACE; 9%N; NEWLINE; 160%N; SPACE] = [].
Proof.
  apply clean_response_blank. intros c Hin. simpl in Hin.
  intuition (subst c; reflexivity).
Defined.

(** When every ['['] that has a [']'] after it in the text has one on
    its own line, the result has no ['['] with a [']'] after it: no
    annotation is left. *)
Theorem clean_response_strips_annotations x :
  annotations_closed_on_line x -> no_bracket_pair (clean_response x).
Proof.
  intros H. apply no_bracket_pair_non_ws. rewrite non_ws_clean_response.
  apply no_bracket_pair_non_ws, strip_annotations_no_pair_closed, H.
Qed.

Lemma clean_response_strips_annotations_witness :
  let x := of_string "Hi [smile]" ++ [NEWLINE]
           ++ of_string "Yo [wave] ok [a[b]] end [" in
  annotations_closed_on_line x
  /\ clean_response x = of_string "Hi Yo ok ] end ["
  /\ no_bracket_pair (clean_response x).
Proof.
  intros x.
  assert (H : annotations_closed_on_line x).
  { vm_compute. repeat split; intros E; try discriminate E;
      intros Hin N; try discriminate N; clear - Hin; intuition discriminate. }
  split; [exact H |]. split; [vm_compute; reflexivity |].
  apply clean_response_strips_annotations, H.
Defined.

(** When no two adjacent punctuation marks are followed by a
    non-whitespace code point, every punctuation mark of the result is
    followed by a whitespace or ends it. *)
Theorem clean_response_spaces_punctuation x :
  no_crowded_punct x -> punct_spaced (clean_response x).
Proof.
  intros H. unfold clean_response, collapse_whitespace.
  apply strip_punct_spaced, collapse_punct_spaced,
    space_after_punct_spaced, strip_annotations_no_crowded_punct, H.
Qed.

Lemma clean_response_spaces_punctuation_witness :
  let x := of_string "Wait,what?!  No:yes;ok.[x]So!" in
  clean_response x = of_string "Wait, what? ! No: yes; ok. So!"
  /\ punct_spaced (clean_response x).
Proof.
  intros x. split; [reflexivity |].
  apply clean_response_spaces_punctuation.
  vm_compute. repeat split; intros; try reflexivity; discriminate.
Defined.

End NormalizerFacts.

(* ================================================================= *)
(** ** Properties of [chat_completion] *)

Module LLMFacts.
Import Py LLM.

(** *** The dictionary *)

Lemma lookup_update k f d i :
  lookup i (update k f d)
  = if (k =? i)%Z then option_map f (lookup i d) else lookup i d.
Proof.
  induction d as [| [k' v] d IH]; simpl.
  - destruct (k =? i)%Z; reflexivity.
  - destruct (Z.eqb_spec k' k) as [-> | Hk]; simpl.
    + destruct (Z.eqb_spec k i); reflexivity.
    + destruct (Z.eqb_spec k' i) as [-> | Hi].
      * destruct (Z.eqb_spec k i); [congruence | reflexivity].
      * exact IH.
Qed.

Lemma lookup_insert_new k v d i :
  lookup i (insert_new k v d)
  = match lookup i d with
    | Some r => Some r
    | None => if (k =? i)%Z then Some v else None
    end.
Proof.
  unfold insert_new. induction d as [| [k' v'] d IH]; simpl; [reflexivity |].
  destruct (k' =? i)%Z; [reflexivity | exact IH].
Qed.

Lemma accumulate_tool_call_lookup acc tc i :
  lookup i (accumulate_tool_call acc tc)
  = if (index_of tc =? i)%Z
    then Some (merge (match lookup i acc with
                      | Some r => r
                      | None => fresh tc
                      end) tc)
    else lookup i acc.
Proof.
  unfold accumulate_tool_call, mem. fold (fresh tc).
  remember (if match lookup (index_of tc) acc with
               | Some _ => true
               | None => false
               end
            then acc else insert_new (index_of tc) (fresh tc) acc)
    as acc0 eqn:Eacc.
  assert (H0 : lookup i acc0
               = if (index_of tc =? i)%Z
                 then Some (match lookup i acc with
                            | Some r => r
                            | None => fresh tc
                            end)
                 else lookup i acc).
  { subst acc0. destruct (Z.eqb_spec (index_of tc) i) as [<- | Hk].
    - destruct (lookup (index_of tc) acc) eqn:E; [exact E |].
      rewrite lookup_insert_new, E, Z.eqb_refl. reflexivity.
    - destruct (lookup (index_of tc) acc); [reflexivity |].
      rewrite lookup_insert_new. destruct (lookup i acc); [reflexivity |].
      destruct (Z.eqb_spec (index_of tc) i); [contradiction | reflexivity]. }
  clear Eacc. unfold merge, name_of, arguments_of.
  set (X := match lookup i acc with Some r => r | None => fresh tc end) in *.
  clearbody X.
  assert (Hupd : forall f d,
             lookup i (update (index_of tc) f d)
             = if (index_of tc =? i)%Z
               then option_map f (lookup i d) else lookup i d)
    by (intros; apply lookup_update).
  destruct (index_of tc =? i)%Z;
    destruct (tc_function tc) as [[[n |] [a |]] |]; simpl;
    repeat match goal with
      | |- context [truthy_opt ?x] => destruct (truthy_opt x)
      | |- context [truthy ?x] => destruct (truthy x)
      end;
    rewrite ?Hupd, ?H0; simpl; rewrite ?app_nil_r;
    try reflexivity; destruct X; reflexivity.
Qed.

Lemma non_empty_app a b : non_empty (a ++ b) = non_empty a ++ non_empty b.
Proof. unfold non_empty. apply flat_map_app. Qed.

Lemma non_empty_one v :
  non_empty [v]
  = match v with Some s => if truthy s then [s] else [] | None => [] end.
Proof. unfold non_empty. simpl. apply app_nil_r. Qed.

Lemma last_non_empty_snoc vs v :
  last_non_empty (vs ++ [v])
  = if truthy_opt v then v else last_non_empty vs.
Proof.
  unfold last_non_empty. rewrite non_empty_app, rev_app_distr, non_empty_one.
  destruct v as [s |]; simpl; [| reflexivity].
  destruct (truthy s); reflexivity.
Qed.

Lemma summary_snoc i sel tc :
  index_of tc = i ->
  summary i (sel ++ [tc])
  = Some (merge (match summary i sel with
                 | Some r => r
                 | None => fresh tc
                 end) tc).
Proof.
  intros Hi. destruct sel as [| f0 sel].
  - simpl. unfold merge, fresh, last_non_empty. simpl.
    rewrite !app_nil_r, Hi. f_equal. f_equal.
    + destruct (tc_id tc) as [s |]; simpl; [| reflexivity].
      destruct (truthy s); reflexivity.
    + destruct (tc_type tc) as [s |]; simpl; [| reflexivity].
      destruct (truthy s); reflexivity.
    + destruct (name_of tc) as [s |]; simpl; [| reflexivity].
      destruct (truthy s); reflexivity.
  - change ((f0 :: sel) ++ [tc]) with (f0 :: (sel ++ [tc])).
    unfold summary, merge.
    change (f0 :: (sel ++ [tc])) with ((f0 :: sel) ++ [tc]).
    rewrite !map_app. simpl map at 2 4 6 8.
    rewrite !last_non_empty_snoc, non_empty_app, concat_app.
    cbn [td_index td_id td_type td_name td_arguments].
    f_equal. f_equal.
    + destruct (truthy_opt (tc_id tc)) eqn:E; [| reflexivity].
      destruct (tc_id tc); [reflexivity | discriminate].
    + destruct (truthy_opt (tc_type tc)) eqn:E; [| reflexivity].
      destruct (tc_type tc); [reflexivity | discriminate].
    + destruct (name_of tc) as [s |]; simpl; [| reflexivity].
      destruct (truthy s); reflexivity.
Qed.

Lemma accumulate_snoc fs tc :
  accumulate (fs ++ [tc]) = accumulate_tool_call (accumulate fs) tc.
Proof. unfold accumulate, accumulate_from. apply fold_left_app. Qed.

Lemma select_snoc i fs tc :
  select i (fs ++ [tc])
  = select i fs ++ (if (index_of tc =? i)%Z then [tc] else []).
Proof. unfold select. rewrite filter_app. reflexivity. Qed.

(** The dictionary after any list of fragments, entry by entry. *)
Lemma accumulate_lookup fs i :
  lookup i (accumulate fs) = summary i (select i fs).
Proof.
  induction fs as [| tc fs IH] using rev_ind; [reflexivity |].
  rewrite accumulate_snoc, accumulate_tool_call_lookup, select_snoc, IH.
  destruct (Z.eqb_spec (index_of tc) i) as [Hi | Hi].
  - symmetry. apply summary_snoc, Hi.
  - rewrite app_nil_r. reflexivity.
Qed.

(** *** The loop *)

Lemma collect_text_eq st chunk :
  collect_text st chunk
  = {| accumulated_tool_calls := accumulated_tool_calls st;
       in_tool_call := in_tool_call st;
       final_text := final_text st ++ text_of chunk |}.
Proof.
  unfold collect_text, text_of. destruct st as [a b t]; simpl.
  destruct (choices chunk) as [| c0 ?]; [rewrite app_nil_r; reflexivity |].
  destruct (content (delta c0)) as [s' |]; [| rewrite app_nil_r; reflexivity].
  destruct s'; simpl; [rewrite app_nil_r |]; reflexivity.
Qed.

(** With tool support off, every chunk only adds its text. *)
Lemma consume_without_tools st l :
  consume false st l
  = Ok {| accumulated_tool_calls := accumulated_tool_calls st;
          in_tool_call := in_tool_call st;
          final_text := final_text st ++ concat (map text_of l) |}.
Proof.
  revert st. induction l as [| chunk l IH]; intros st; simpl.
  - rewrite app_nil_r. destruct st; reflexivity.
  - rewrite IH, collect_text_eq. simpl. rewrite app_assoc. reflexivity.
Qed.

Lemma accumulate_from_app acc a b :
  accumulate_from acc (a ++ b) = accumulate_from (accumulate_from acc a) b.
Proof. apply fold_left_app. Qed.

Lemma consume_chunk_with_tools st chunk :
  has_choice chunk = true ->
  consume_chunk true st chunk
  = Ok (if has_tool_calls chunk
        then {| accumulated_tool_calls :=
                  accumulate_from (accumulated_tool_calls st) (fragments chunk);
                in_tool_call := true;
                final_text := final_text st |}
        else {| accumulated_tool_calls := accumulated_tool_calls st;
                in_tool_call := in_tool_call st;
                final_text := final_text st ++ text_of chunk |}).
Proof.
  intros H. unfold consume_chunk. rewrite collect_text_eq.
  unfold has_tool_calls, fragments, has_choice in *.
  destruct (choices chunk) as [| c0 cs]; [discriminate |].
  destruct (tool_calls (delta c0)) as [[| tc tcs] |]; reflexivity.
Qed.

Lemma not_tool_fragment chunk :
  has_tool_calls chunk = false -> fragments chunk = [].
Proof.
  unfold has_tool_calls. destruct (fragments chunk); [auto | discriminate].
Qed.

(** With tool support on and a choice in every chunk, the loop sorts
    the chunks: a chunk with fragments feeds the dictionary and its text
    is skipped, any other chunk adds its text. *)
Lemma consume_with_tools st l :
  forallb has_choice l = true ->
  consume true st l
  = Ok {| accumulated_tool_calls :=
            accumulate_from (accumulated_tool_calls st) (flat_map fragments l);
          in_tool_call := in_tool_call st || existsb has_tool_calls l;
          final_text :=
            final_text st
            ++ concat (map text_of
                         (filter (fun c => negb (has_tool_calls c)) l)) |}.
Proof.
  revert st. induction l as [| chunk l IH]; intros st H.
  - simpl. rewrite app_nil_r, orb_false_r. destruct st; reflexivity.
  - simpl in H. apply andb_true_iff in H. destruct H as [Hc Hl].
    cbn [consume flat_map existsb filter].
    rewrite (consume_chunk_with_tools st _ Hc).
    destruct (has_tool_calls chunk) eqn:E.
    + rewrite IH by exact Hl. cbn [negb accumulated_tool_calls in_tool_call final_text].
      rewrite accumulate_from_app, orb_true_r. reflexivity.
    + rewrite IH by exact Hl. cbn [negb accumulated_tool_calls in_tool_call final_text].
      rewrite (not_tool_fragment _ E). cbn [app map concat].
      rewrite app_assoc. reflexivity.
Qed.

Lemma accumulate_non_empty fs :
  fs <> [] -> non_empty_dict (accumulate fs) = true.
Proof.
  intros H. destruct (exists_last H) as [fs' [tc ->]].
  pose proof (accumulate_tool_call_lookup (accumulate fs') tc (index_of tc)) as L.
  rewrite Z.eqb_refl in L. rewrite accumulate_snoc.
  destruct (accumulate_tool_call (accumulate fs') tc); [discriminate | reflexivity].
Qed.

Lemma fragments_of_tool_fragment l :
  existsb has_tool_calls l = true -> flat_map fragments l <> [].
Proof.
  induction l as [| c l IH]; simpl; [discriminate |].
  unfold has_tool_calls at 1.
  destruct (fragments c); [simpl; exact IH | discriminate].
Qed.

Lemma fragments_of_text_deltas l :
  forallb is_text_delta l = true ->
  flat_map fragments l = []
  /\ existsb has_tool_calls l = false
  /\ filter (fun c => negb (has_tool_calls c)) l = l
  /\ forallb has_choice l = true.
Proof.
  induction l as [| c l IH]; simpl; [auto |].
  intros H. apply andb_true_iff in H. destruct H as [Hc Hl].
  destruct (IH Hl) as (I1 & I2 & I3 & I4).
  unfold is_text_delta in Hc. apply andb_true_iff in Hc.
  destruct Hc as [Hh Ht]. rewrite Hh, Ht, I1, I2, I3, I4.
  apply negb_true_iff in Ht. rewrite Ht.
  unfold has_tool_calls in Ht.
  destruct (fragments c); [auto | discriminate].
Qed.

Lemma mixed_chunks_have_choice l :
  forallb (fun c => is_text_delta c || has_tool_calls c) l = true ->
  forallb has_choice l = true.
Proof.
  induction l as [| c l IH]; simpl; [auto |].
  intros H. apply andb_true_iff in H. destruct H as [Hc Hl].
  rewrite (IH Hl), andb_true_r.
  unfold is_text_delta, has_tool_calls, fragments, has_choice in *.
  destruct (choices c); [discriminate | reflexivity].
Qed.

(** *** Merging the fragments of a tool call *)

(** C2. Whatever the fragments, the record accumulated for an index
    holds as [arguments] the concatenation, in stream order, of the
    non-empty argument fragments that carry this index. *)
Theorem arguments_concatenated fs i r :
  lookup i (accumulate fs) = Some r ->
  td_arguments r = concat (non_empty (map arguments_of (select i fs))).
Proof.
  rewrite accumulate_lookup. unfold summary.
  destruct (select i fs); [discriminate |].
  intros [= <-]. reflexivity.
Qed.

(** C3, as the code has it. The fields [id], [type] and [name] of the
    record of an index hold the last non-empty value that a fragment of
    this index carried; an empty or missing value never overwrites.
    Without any non-empty value, [id] and [type] keep what the first
    fragment had and [name] is empty. *)
Theorem fields_take_last_non_empty fs i r :
  lookup i (accumulate fs) = Some r ->
  let sel := select i fs in
  td_id r = match last_non_empty (map tc_id sel) with
            | Some v => Some v
            | None => hd None (map tc_id sel)
            end
  /\ td_type r = match last_non_empty (map tc_type sel) with
                 | Some v => Some v
                 | None => hd None (map tc_type sel)
                 end
  /\ td_name r = match last_non_empty (map name_of sel) with
                 | Some v => v
                 | None => []
                 end.
Proof.
  rewrite accumulate_lookup. unfold summary.
  destruct (select i fs) as [| f0 sel]; [discriminate |].
  intros [= <-]. simpl. auto.
Qed.

(** The records come in the order in which their indices first appear;
    a fragment without [index] goes to index 0, and an empty [id] stays
    when no other comes. *)
Example interleaved_calls :
  values (accumulate example_interleaved)
  = [ {| td_index := 1; td_id := Some (of_string "call_b");
         td_type := Some (of_string "function");
         td_name := of_string "g"; td_arguments := of_string "[1]" |};
      {| td_index := 0; td_id := Some []; td_type := None;
         td_name := of_string "f"; td_arguments := of_string "{}" |} ].
Proof. reflexivity. Qed.

Lemma arguments_concatenated_witness :
  exists r,
    lookup 0 (accumulate example_arguments) = Some r
    /\ td_arguments r
       = concat (non_empty (map arguments_of (select 0 example_arguments)))
    /\ td_arguments r
       = of_string "{" ++ [QUOTE] ++ of_string "a" ++ [QUOTE]
         ++ of_string ":1}".
Proof.
  eexists. split; [reflexivity |]. split.
  - apply (arguments_concatenated example_arguments 0). reflexivity.
  - reflexivity.
Defined.

Lemma fields_take_last_non_empty_witness :
  exists r,
    lookup 0 (accumulate example_ids) = Some r
    /\ td_id r = Some (of_string "call_b")
    /\ td_type r = None
    /\ td_name r = [].
Proof.
  eexists. split; [reflexivity |].
  exact (fields_take_last_non_empty example_ids 0 eq_refl).
Defined.

(** C3, as the specification words it, fails: the first non-empty [id]
    is overwritten by the second one. *)
Lemma first_id_overwritten :
  exists r,
    lookup 0 (accumulate example_ids) = Some r
    /\ first_non_empty (map tc_id (select 0 example_ids))
       = Some (of_string "call_a")
    /\ td_id r = Some (of_string "call_b")
    /\ td_id r <> first_non_empty (map tc_id (select 0 example_ids)).
Proof.
  eexists. split; [reflexivity |]. repeat split. vm_compute. discriminate.
Qed.

(** *** The generator *)

Section ChatCompletion.

Variable tool_schema : Type.
Variable float : Type.
Variable ToolCallObject : Type.
Variable from_dict : tool_data -> ToolCallObject.

Implicit Types (self : AsyncLLM float)
  (create : request tool_schema float -> result AsyncStream)
  (messages : list message) (system : option str)
  (tools : option (list tool_schema)) (e : exn).

Lemma handle_request self (req : request tool_schema float) closed e :
  request_made (handle (ToolCallObject := ToolCallObject) self req closed e)
  = req.
Proof.
  unfold handle. destruct (cls e); try reflexivity.
  destruct (contains NO_TOOLS (msg e)); reflexivity.
Qed.

Lemma handle_keeps_tools_off self (req : request tool_schema float) closed e :
  support_tools self = false ->
  support_tools
    (self_after (handle (ToolCallObject := ToolCallObject) self req closed e))
  = false.
Proof.
  intros H. unfold handle. destruct (cls e); try exact H.
  destruct (contains NO_TOOLS (msg e)); [reflexivity | exact H].
Qed.


Lemma chat_completion_request self create messages system tools :
  request_made (chat_completion from_dict self create messages system tools)
  = build_request self messages system tools.
Proof.
  unfold chat_completion.
  destruct (create _) as [stream | e]; [| apply handle_request].
  destruct (consume _ _ _) as [st | e]; [| apply handle_request].
  destruct (ending stream) as [e |]; [apply handle_request | reflexivity].
Qed.

Lemma chat_completion_keeps_tools_off self create messages system tools :
  support_tools self = false ->
  support_tools
    (self_after (chat_completion from_dict self create messages system tools))
  = false.
Proof.
  intros H. unfold chat_completion.
  destruct (create _) as [stream | e]; [| apply handle_keeps_tools_off, H].
  destruct (consume _ _ _) as [st | e]; [| apply handle_keeps_tools_off, H].
  destruct (ending stream) as [e |]; [apply handle_keeps_tools_off, H | exact H].
Qed.

Lemma build_request_without_tools self messages system tools :
  support_tools self = false ->
  req_tools (build_request self messages system tools) = None.
Proof. intros H. unfold build_request. simpl. rewrite H. reflexivity. Qed.

(** Once the flag is off, every later call finds it off, leaves it off
    and sends no tools. *)
Lemma do_calls_without_tools self (cs : list (call tool_schema float)) r :
  support_tools self = false ->
  In r (do_calls from_dict self cs) ->
  support_tools (self_after r) = false
  /\ req_tools (request_made r) = None.
Proof.
  revert self. induction cs as [| c cs IH]; intros self H; simpl; [tauto |].
  intros [<- | Hin].
  - unfold do_call. split.
    + apply chat_completion_keeps_tools_off, H.
    + rewrite chat_completion_request.
      apply build_request_without_tools, H.
  - apply (IH (self_after (do_call from_dict self c))); [| exact Hin].
    apply chat_completion_keeps_tools_off, H.
Qed.

(** A call that meets an exception runs the [except] clauses on it. *)
Lemma chat_completion_handles self create messages system tools e :
  let req := build_request self messages system tools in
  raised_by_create create req e \/ raised_in_iteration self create req e ->
  chat_completion from_dict self create messages system tools
  = handle self req
      (match create req with Ok _ => true | Raise _ => false end) e.
Proof.
  intros req [H | (stream & st & Hc & Hs & He)]; unfold chat_completion;
    fold req.
  - unfold raised_by_create in H. rewrite H. reflexivity.
  - rewrite Hc, Hs, He. reflexivity.
Qed.

(** C1. With tool support on and a stream that ends normally: a stream
    of text deltas only yields the accumulated text; a stream of text
    deltas and tool-call fragments with at least one fragment has a
    non-empty accumulator and yields exactly the records accumulated from
    its fragments, whatever the text deltas in between. *)
Theorem chat_completion_final_result
  self create messages system tools stream :
  support_tools self = true ->
  create (build_request self messages system tools) = Ok stream ->
  ending stream = None ->
  let r := chat_completion from_dict self create messages system tools in
  let fs := flat_map fragments (chunks stream) in
  (forallb is_text_delta (chunks stream) = true ->
   yielded r = [Text (concat (map text_of (chunks stream)))])
  /\ (forallb (fun c => is_text_delta c || has_tool_calls c)
        (chunks stream) = true ->
      existsb has_tool_calls (chunks stream) = true ->
      accumulate fs <> []
      /\ yielded r = [ToolCalls (map from_dict (values (accumulate fs)))]).
Proof.
  intros Hs Hc He r fs. subst r fs. unfold chat_completion.
  rewrite Hc, Hs, He. split.
  - intros Ht. destruct (fragments_of_text_deltas _ Ht) as (F1 & F2 & F3 & F4).
    rewrite (consume_with_tools _ _ F4), F1, F2, F3. reflexivity.
  - intros Hm Hx.
    rewrite (consume_with_tools _ _ (mixed_chunks_have_choice _ Hm)), Hx.
    pose proof (accumulate_non_empty (fragments_of_tool_fragment _ Hx)) as Hn.
    simpl. unfold final_item. simpl.
    fold (accumulate (flat_map fragments (chunks stream))).
    rewrite Hn. split; [| reflexivity].
    intros E. rewrite E in Hn. discriminate.
Qed.

(** C4. A call that meets an [APIError] (neither a connection nor a
    rate-limit error, which earlier clauses take) whose message has
    ["does not support tools"] yields the sentinel and nothing else,
    raises nothing and turns [support_tools] off; every later call on the
    instance leaves the flag off and sends no tools. *)
Theorem capability_fault_disables_tools
  self create messages system tools e :
  cls e = APIError ->
  contains NO_TOOLS (msg e) = true ->
  (let req := build_request self messages system tools in
   raised_by_create create req e \/ raised_in_iteration self create req e) ->
  let r := chat_completion from_dict self create messages system tools in
  yielded r = [Text SENTINEL]
  /\ raised r = None
  /\ support_tools (self_after r) = false
  /\ forall (cs : list (call tool_schema float)) r',
       In r' (do_calls from_dict (self_after r) cs) ->
       support_tools (self_after r') = false
       /\ req_tools (request_made r') = None.
Proof.
  intros Hcls Hmsg Hmet r. subst r.
  rewrite (chat_completion_handles Hmet).
  unfold handle. rewrite Hcls, Hmsg. simpl.
  split; [reflexivity |]. split; [reflexivity |]. split; [reflexivity |].
  intros cs r' Hin.
  eapply do_calls_without_tools; [| exact Hin]. reflexivity.
Qed.

(** C5, as the code has it. A connection or rate-limit error raised by
    the iteration does not leave the generator: the stream is closed,
    what the loop had accumulated is dropped and one fixed message is
    yielded, the instance unchanged. *)
Theorem iteration_fault_yields_message
  self create messages system tools e :
  cls e = APIConnectionError \/ cls e = RateLimitError ->
  raised_in_iteration self create
    (build_request self messages system tools) e ->
  let r := chat_completion from_dict self create messages system tools in
  raised r = None
  /\ yielded r
     = [Text (match cls e with
              | RateLimitError => RATE_LIMIT_ERROR
              | _ => CONNECTION_ERROR
              end)]
  /\ stream_closed r = true
  /\ self_after r = self.
Proof.
  intros Hcls Hmet r. subst r.
  rewrite (chat_completion_handles (or_intror Hmet)).
  destruct Hmet as (stream & st & Hc & _ & _). rewrite Hc.
  unfold handle. destruct Hcls as [-> | ->]; simpl; auto.
Qed.


End ChatCompletion.

Lemma chat_completion_final_result_witness :
  yielded (example_run example_text_stream) = [Text (of_string "Hello")]
  /\ yielded (example_run example_tool_stream)
     = [ToolCalls
          [ {| td_index := 0;
               td_id := Some (of_string "call_a");
               td_type := Some (of_string "function");
               td_name := of_string "get_weather";
               td_arguments := of_string "{}" |} ]].
Proof.
  split.
  - exact (proj1 (@chat_completion_final_result str Z tool_data
                    (fun r => r) example_self
                    (fun _ => Ok example_text_stream) [] None example_tools
                    example_text_stream eq_refl eq_refl eq_refl) eq_refl).
  - exact (proj2 (proj2 (@chat_completion_final_result str Z tool_data
                           (fun r => r) example_self
                           (fun _ => Ok example_tool_stream)
                           [] None example_tools example_tool_stream
                           eq_refl eq_refl eq_refl)
                    eq_refl eq_refl)).
Defined.

Lemma capability_fault_disables_tools_witness :
  let r := chat_completion (fun r => r) example_self
             (fun _ => Raise tools_refused) [] None example_tools in
  yielded r = [Text SENTINEL]
  /\ raised r = None
  /\ support_tools (self_after r) = false
  /\ forall (cs : list (call str Z)) r',
       In r' (do_calls (fun r => r) (self_after r) cs) ->
       support_tools (self_after r') = false
       /\ req_tools (request_made r') = None.
Proof.
  exact (@capability_fault_disables_tools str Z tool_data
           (fun r => r) example_self
           (fun _ => Raise tools_refused) [] None example_tools
           tools_refused eq_refl eq_refl (or_introl eq_refl)).
Defined.

(** The call after the fault: the tools it is given do not reach the
    request. *)
Example second_call_sends_no_tools :
  let r := chat_completion (fun r => r) example_self
             (fun _ => Raise tools_refused) [] None example_tools in
  let r' := chat_completion (fun r => r) (self_after r)
              (fun _ => Ok example_tool_stream) [] None example_tools in
  req_tools (request_made r) = example_tools
  /\ req_tools (request_made r') = None
  /\ yielded r' = [Text (of_string "Let me check. One moment.")].
Proof. repeat split. Qed.

Lemma iteration_fault_yields_message_witness :
  let r := example_run example_broken_stream in
  raised r = None
  /\ yielded r = [Text CONNECTION_ERROR]
  /\ stream_closed r = true
  /\ self_after r = example_self.
Proof.
  refine (@iteration_fault_yields_message str Z tool_data
            (fun r => r) example_self
            (fun _ => Ok example_broken_stream) [] None example_tools
            (Exn APIConnectionError (of_string "Connection error."))
            (or_introl eq_refl) _).
  eexists. eexists. split; [reflexivity |]. split; reflexivity.
Defined.

(** C5, as the specification words it, fails: the text accumulated
    before the fault is not what is yielded. *)
Lemma partial_text_dropped :
  exists st,
    consume true initial_locals (chunks example_broken_stream) = Ok st
    /\ final_text st = of_string "Hi"
    /\ yielded (example_run example_broken_stream) = [Text CONNECTION_ERROR]
    /\ yielded (example_run example_broken_stream) <> [Text (final_text st)].
Proof.
  eexists. split; [reflexivity |]. split; [reflexivity |].
  split; [reflexivity |]. vm_compute. discriminate.
Qed.

(** The clause for [APIConnectionError] comes first: the text of such an
    error is not searched, and the flag stays on. *)
Example connection_error_taken_first :
  let r := chat_completion (fun r => r) example_self
             (fun _ => Raise connection_lost) [] None example_tools in
  contains NO_TOOLS (msg connection_lost) = true
  /\ yielded r = [Text CONNECTION_ERROR]
  /\ support_tools (self_after r) = true.
Proof. repeat split. Qed.

(** With tool support on, a chunk without choices stops the run with an
    [IndexError] that no clause takes. *)
Example empty_choices_raise :
  let r := example_run {| chunks := [ {| choices := [] |} ]; ending := None |} in
  yielded r = []
  /\ option_map cls (raised r) = Some IndexError
  /\ stream_closed r = true.
Proof. repeat split. Qed.

(** *** The keys of the accumulator *)

Lemma keys_update k f d : keys (update k f d) = keys d.
Proof.
  unfold keys. induction d as [| [k' v] d IH]; simpl; [reflexivity |].
  destruct (k' =? k)%Z; simpl; [reflexivity | f_equal; exact IH].
Qed.

Lemma lookup_keys k d : lookup k d <> None <-> In k (keys d).
Proof.
  unfold keys. induction d as [| [k' v] d IH]; simpl; [tauto |].
  destruct (Z.eqb_spec k' k) as [-> | Hk].
  - split; [auto | discriminate].
  - rewrite IH. split; [auto | intros [E | H]; [contradiction | exact H]].
Qed.

Lemma keys_accumulate_tool_call acc tc :
  keys (accumulate_tool_call acc tc)
  = if mem (index_of tc) acc then keys acc else keys acc ++ [index_of tc].
Proof.
  unfold accumulate_tool_call.
  assert (H : keys (if mem (index_of tc) acc then acc
                    else insert_new (index_of tc)
                           {| td_index := index_of tc;
                              td_id := tc_id tc;
                              td_type := tc_type tc;
                              td_name := [];
                              td_arguments := [] |} acc)
              = if mem (index_of tc) acc then keys acc
                else keys acc ++ [index_of tc]).
  { destruct (mem (index_of tc) acc); [reflexivity |].
    unfold insert_new, keys. rewrite map_app. reflexivity. }
  cbv zeta.
  destruct (tc_function tc) as [[[n |] [a |]] |]; cbn [fn_name fn_arguments];
    repeat match goal with
      | |- context [truthy_opt ?x] => destruct (truthy_opt x)
      | |- context [truthy ?x] => destruct (truthy x)
      end;
    rewrite ?keys_update; exact H.
Qed.

Lemma first_occurrences_snoc l i :
  first_occurrences (l ++ [i])
  = if in_dec Z.eq_dec i l then first_occurrences l
    else first_occurrences l ++ [i].
Proof.
  unfold first_occurrences. rewrite rev_app_distr. simpl.
  destruct (in_dec Z.eq_dec i (rev l)) as [H | H];
    destruct (in_dec Z.eq_dec i l) as [H' | H']; try reflexivity.
  - elim H'. apply in_rev. exact H.
  - elim H. apply in_rev in H'. exact H'.
Qed.

Lemma first_occurrences_In l i : In i (first_occurrences l) <-> In i l.
Proof.
  unfold first_occurrences. rewrite <- in_rev, nodup_In, <- in_rev. tauto.
Qed.

Lemma keys_accumulate fs :
  keys (accumulate fs) = first_occurrences (map index_of fs).
Proof.
  induction fs as [| tc fs IH] using rev_ind; [reflexivity |].
  rewrite accumulate_snoc, keys_accumulate_tool_call, map_app. simpl.
  rewrite first_occurrences_snoc, <- IH.
  unfold mem.
  destruct (in_dec Z.eq_dec (index_of tc) (map index_of fs)) as [H | H].
  - apply first_occurrences_In in H. rewrite <- IH in H.
    apply lookup_keys in H.
    destruct (lookup (index_of tc) (accumulate fs)); [reflexivity | tauto].
  - destruct (lookup (index_of tc) (accumulate fs)) eqn:E; [| reflexivity].
    elim H. apply first_occurrences_In. rewrite <- IH.
    apply lookup_keys. rewrite E. discriminate.
Qed.

Lemma lookup_in_nodup k v d :
  NoDup (keys d) -> In (k, v) d -> lookup k d = Some v.
Proof.
  unfold keys. induction d as [| [k' v'] d IH]; simpl; [tauto |].
  intros Hn [E | Hin].
  - injection E as -> ->. rewrite Z.eqb_refl. reflexivity.
  - inversion Hn as [| ? ? Hk Hd]; subst.
    destruct (Z.eqb_spec k' k) as [-> | _]; [| apply IH; assumption].
    elim Hk. change k with (fst (k, v)). apply in_map. exact Hin.
Qed.

(** The accumulator holds one record for each call index of the
    fragments, in the order in which the indices first appear, and each
    record carries the index under which it is kept. *)
Theorem accumulator_keys fs :
  keys (accumulate fs) = first_occurrences (map index_of fs)
  /\ NoDup (keys (accumulate fs))
  /\ Forall (fun kv => td_index (snd kv) = fst kv) (accumulate fs).
Proof.
  assert (Hn : NoDup (keys (accumulate fs))).
  { rewrite keys_accumulate. unfold first_occurrences.
    apply NoDup_rev, NoDup_nodup. }
  split; [apply keys_accumulate |]. split; [exact Hn |].
  apply Forall_forall. intros [k v] Hin. simpl.
  pose proof (lookup_in_nodup _ _ _ Hn Hin) as L.
  rewrite accumulate_lookup in L. unfold summary in L.
  destruct (select k fs); [discriminate |].
  injection L as <-. reflexivity.
Qed.

(** *** The other paths of the generator *)

Section ChatCompletionPaths.

Variable tool_schema : Type.
Variable float : Type.
Variable ToolCallObject : Type.
Variable from_dict : tool_data -> ToolCallObject.

Implicit Types (self : AsyncLLM float)
  (create : request tool_schema float -> result AsyncStream)
  (messages : list message) (system : option str)
  (tools : option (list tool_schema)) (e : exn).

(** With tool support off, a stream that ends normally yields the
    texts of its chunks, concatenated: a chunk without choices is skipped
    and tool-call fragments are never looked at. *)
Theorem chat_completion_without_tools
  self create messages system tools stream :
  support_tools self = false ->
  create (build_request self messages system tools) = Ok stream ->
  ending stream = None ->
  let r := chat_completion from_dict self create messages system tools in
  yielded r = [Text (concat (map text_of (chunks stream)))]
  /\ raised r = None
  /\ req_tools (request_made r) = None.
Proof.
  intros Hs Hc He r. subst r. unfold chat_completion.
  rewrite Hc, Hs, consume_without_tools, He. simpl.
  repeat split. unfold build_request. simpl. rewrite Hs. reflexivity.
Qed.

Lemma handle_closed self (req : request tool_schema float) closed e :
  stream_closed (handle (ToolCallObject := ToolCallObject) self req closed e)
  = closed.
Proof.
  unfold handle. destruct (cls e); try reflexivity.
  destruct (contains NO_TOOLS (msg e)); reflexivity.
Qed.

(** [stream.close()] runs on every exit of a run in which [create]
    returned a stream (a normal end, a fault that a clause takes, an
    exception that leaves), and in no other run. *)
Theorem stream_closed_when_created self create messages system tools :
  stream_closed
    (chat_completion from_dict self create messages system tools)
  = match create (build_request self messages system tools) with
    | Ok _ => true
    | Raise _ => false
    end.
Proof.
  unfold chat_completion.
  destruct (create _) as [stream | e]; [| apply handle_closed].
  destruct (consume _ _ _) as [st | e]; [| apply handle_closed].
  destruct (ending stream) as [e |]; [apply handle_closed | reflexivity].
Qed.

Lemma handle_instance self (req : request tool_schema float) closed e :
  let r := handle (ToolCallObject := ToolCallObject) self req closed e in
  self_after r = self
  \/ (self_after r = disable_tools self
      /\ yielded r = [Text SENTINEL] /\ raised r = None).
Proof.
  unfold handle. destruct (cls e); simpl; auto.
  destruct (contains NO_TOOLS (msg e)); simpl; auto.
Qed.

(** A run leaves the instance as it found it, unless it yields the
    sentinel, and then only [support_tools] has changed, to [False]. *)
Theorem instance_changes_with_sentinel self create messages system tools :
  let r := chat_completion from_dict self create messages system tools in
  self_after r = self
  \/ (self_after r = disable_tools self
      /\ yielded r = [Text SENTINEL] /\ raised r = None).
Proof.
  intros r. subst r. unfold chat_completion.
  destruct (create _) as [stream | e]; [| apply handle_instance].
  destruct (consume _ _ _) as [st | e]; [| apply handle_instance].
  destruct (ending stream) as [e |]; [apply handle_instance | left; reflexivity].
Qed.

(** An [APIError] that the two first clauses do not take and whose
    message does not speak of tools yields the general error message and
    leaves the instance as it is. *)
Theorem other_api_error_reported self create messages system tools e :
  cls e = APIError ->
  contains NO_TOOLS (msg e) = false ->
  (let req := build_request self messages system tools in
   raised_by_create create req e \/ raised_in_iteration self create req e) ->
  let r := chat_completion from_dict self create messages system tools in
  yielded r = [Text GENERIC_ERROR]
  /\ raised r = None
  /\ self_after r = self.
Proof.
  intros Hcls Hmsg Hmet r. subst r.
  rewrite (chat_completion_handles from_dict Hmet).
  unfold handle. rewrite Hcls, Hmsg. simpl. auto.
Qed.

(** As long as no earlier run has turned the flag off, a call on an
    instance whose flag is on sends the tools that it is given. *)
Theorem tools_forwarded_while_supported
  (cs : list (call tool_schema float)) :
  forall self n c r,
    support_tools self = true ->
    nth_error cs n = Some c ->
    nth_error (do_calls from_dict self cs) n = Some r ->
    (forall m r', (m < n)%nat ->
                  nth_error (do_calls from_dict self cs) m = Some r' ->
                  support_tools (self_after r') = true) ->
    req_tools (request_made r) = call_tools c.
Proof.
  induction cs as [| c0 cs IH]; intros self n c r Hs Hc Hr Hon.
  - destruct n; discriminate.
  - destruct n as [| n]; simpl in Hc, Hr.
    + injection Hc as <-. injection Hr as <-.
      unfold do_call. rewrite chat_completion_request.
      unfold build_request. simpl. rewrite Hs. reflexivity.
    + apply (IH (self_after (do_call from_dict self c0)) n c r).
      * apply (Hon 0%nat); [lia | reflexivity].
      * exact Hc.
      * exact Hr.
      * intros m r' Hm Hr'. apply (Hon (S m)); [lia | exact Hr'].
Qed.

End ChatCompletionPaths.

Lemma chat_completion_without_tools_witness :
  let self := disable_tools example_self in
  let r := chat_completion (fun r => r) self
             (fun _ => Ok example_mixed_stream) [] None example_tools in
  yielded r = [Text (of_string "No tools.")]
  /\ raised r = None
  /\ req_tools (request_made r) = None.
Proof.
  exact (@chat_completion_without_tools str Z tool_data (fun r => r)
           (disable_tools example_self) (fun _ => Ok example_mixed_stream)
           [] None example_tools example_mixed_stream
           eq_refl eq_refl eq_refl).
Defined.

Lemma other_api_error_reported_witness :
  let r := chat_completion (fun r => r) example_self
             (fun _ => Raise server_error) [] None example_tools in
  yielded r = [Text GENERIC_ERROR]
  /\ raised r = None
  /\ self_after r = example_self.
Proof.
  exact (@other_api_error_reported str Z tool_data (fun r => r)
           example_self (fun _ => Raise server_error) [] None example_tools
           server_error eq_refl eq_refl (or_introl eq_refl)).
Defined.

Lemma tools_forwarded_while_supported_witness :
  let self := init (of_string "qwen") (of_string "http://localhost") 1%Z in
  let runs := do_calls (fun r => r) self example_calls in
  map (fun r => req_tools (request_made r)) runs
  = [example_tools; example_tools; None]
  /\ exists r,
       nth_error runs 1 = Some r
       /\ support_tools (self_after r) = false
       /\ req_tools (request_made r) = example_tools.
Proof.
  intros self runs. split; [reflexivity |].
  eexists. split; [reflexivity |]. split; [reflexivity |].
  refine (@tools_forwarded_while_supported str Z tool_data (fun r => r)
            example_calls self 1%nat _ _ eq_refl eq_refl eq_refl _).
  intros m r' Hm Hr'. destruct m as [| m]; [| lia].
  injection Hr' as <-. reflexivity.
Defined.

End LLMFacts.

(* ================================================================= *)
(** ** Properties of [process_single_conversation] *)

Module TurnFacts.
Import Py Turn.

Section Conversation.

Variable World : Type.
Variable UserInput : Type.
Variable Images : Type.
Variable BatchInput : Type.
Variable env : Collaborators World UserInput Images BatchInput.
Variable context : ServiceContext.

Implicit Types (s : state World) (e : exn) (batch_input : BatchInput)
  (user_input : UserInput) (images : option Images)
  (metadata : option Metadata) (client_uid : str).

(** *** The log *)

Lemma cleanups_app l l' : cleanups (l ++ l') = (cleanups l + cleanups l')%nat.
Proof. unfold cleanups. rewrite filter_app, length_app. reflexivity. Qed.

Lemma cleanups_outcome A (r : result A) : cleanups (outcome r) = 0%nat.
Proof. destruct r; reflexivity. Qed.

Lemma quiet_ret A (a : A) : quiet (ret (World := World) a).
Proof. intros s. reflexivity. Qed.

Lemma quiet_throw A e : quiet (throw (World := World) (A := A) e).
Proof.
  intros s. unfold throw. simpl. rewrite cleanups_app. unfold cleanups at 2.
  simpl. lia.
Qed.

Lemma quiet_bind A B (m : M World A) (k : A -> M World B) :
  quiet m -> (forall a, quiet (k a)) -> quiet (bind m k).
Proof.
  intros Hm Hk s. unfold bind. specialize (Hm s).
  destruct (m s) as [[a | e] s']; simpl in *.
  - rewrite Hk. exact Hm.
  - exact Hm.
Qed.

Lemma quiet_call A ev (f : World -> result A * World) :
  is_cleanup ev = false -> quiet (call ev f).
Proof.
  intros H s. unfold call. destruct (f (world s)) as [r w]. simpl.
  rewrite cleanups_app.
  change (ev :: outcome r) with ([ev] ++ outcome r).
  rewrite cleanups_app, cleanups_outcome. unfold cleanups at 2. simpl.
  rewrite H. simpl. lia.
Qed.

Lemma quiet_buffer t : quiet (buffer (World := World) t).
Proof. intros s. reflexivity. Qed.

Lemma quiet_when b (m : M World unit) : quiet m -> quiet (when b m).
Proof. intros H. destruct b; [exact H | apply quiet_ret]. Qed.

Lemma quiet_try_except A (m : M World A) handler :
  quiet m -> (forall e h, handler e = Some h -> quiet h) ->
  quiet (try_except m handler).
Proof.
  intros Hm Hh s. unfold try_except. specialize (Hm s).
  destruct (m s) as [[a | e] s']; simpl in *; [exact Hm |].
  destruct (handler e) as [h |] eqn:E; [| exact Hm].
  rewrite (Hh _ _ E). exact Hm.
Qed.

Lemma quiet_buffer_all texts : quiet (buffer_all (World := World) texts).
Proof.
  induction texts as [| t texts IH]; simpl; [apply quiet_ret |].
  apply quiet_bind; [apply quiet_buffer | intros _; exact IH].
Qed.

Lemma quiet_end_of_iteration ending :
  quiet (end_of_iteration (World := World) ending).
Proof. destruct ending; [apply quiet_throw | apply quiet_ret]. Qed.

Lemma quiet_send ev : quiet (send env ev).
Proof. apply quiet_call. reflexivity. Qed.

Lemma quiet_handle_items l : quiet (handle_items env context l).
Proof.
  induction l as [| i l IH]; simpl; [apply quiet_ret |].
  apply quiet_bind; [| intros _; exact IH].
  destruct i; simpl.
  - apply quiet_send.
  - apply quiet_bind;
      [apply quiet_buffer_all | intros _; apply quiet_end_of_iteration].
  - apply quiet_bind;
      [apply quiet_buffer_all | intros _; apply quiet_end_of_iteration].
  - apply quiet_ret.
Qed.

Lemma quiet_stream_llm batch_input : quiet (stream_llm env context batch_input).
Proof.
  apply quiet_try_except.
  - apply quiet_bind; [apply quiet_call; reflexivity |].
    intros a. apply quiet_bind; [apply quiet_handle_items |].
    intros _. apply quiet_end_of_iteration.
  - intros e h. unfold report. destruct (is_Exception e); [| discriminate].
    intros [= <-]. apply quiet_send.
Qed.

Lemma quiet_finish_turn client_uid : quiet (finish_turn env context client_uid).
Proof.
  unfold finish_turn.
  apply quiet_bind; [intros s; reflexivity | intros full].
  apply quiet_bind; [apply quiet_when, quiet_call; reflexivity | intros _].
  apply quiet_bind; [intros s; reflexivity | intros pending].
  apply quiet_bind.
  { apply quiet_when, quiet_bind;
      [apply quiet_call; reflexivity | intros _; apply quiet_send]. }
  intros _.
  apply quiet_bind; [apply quiet_call; reflexivity | intros _].
  apply quiet_bind; [apply quiet_when, quiet_call; reflexivity | intros _].
  apply quiet_ret.
Qed.

Lemma quiet_turn_body client_uid user_input images metadata :
  quiet (turn_body env context client_uid user_input images metadata).
Proof.
  unfold turn_body.
  apply quiet_bind; [apply quiet_call; reflexivity | intros _].
  apply quiet_bind; [apply quiet_call; reflexivity | intros input_text].
  apply quiet_bind; [apply quiet_when, quiet_call; reflexivity | intros _].
  apply quiet_bind; [apply quiet_stream_llm | intros _].
  apply quiet_finish_turn.
Qed.

(** *** Exceptions outside of [Exception] *)

Lemma lets_through_pure A (m : M World A) :
  (forall s, log (snd (m s)) = log s) -> lets_through m.
Proof.
  intros H s. exists []. rewrite app_nil_r. split; [apply H |].
  intros e [].
Qed.

Lemma lets_through_ret A (a : A) : lets_through (ret (World := World) a).
Proof. apply lets_through_pure. reflexivity. Qed.

Lemma lets_through_throw A e :
  lets_through (throw (World := World) (A := A) e).
Proof.
  intros s. exists [EvRaised e]. split; [reflexivity |].
  intros e' [[= <-] | []] _. reflexivity.
Qed.

Lemma lets_through_call A ev (f : World -> result A * World) :
  (forall e, ev <> EvRaised e) -> lets_through (call ev f).
Proof.
  intros Hev s. unfold call. destruct (f (world s)) as [r w]. simpl.
  exists (ev :: outcome r). split; [reflexivity |].
  intros e [E | Hin] _; [elim (Hev e E) |].
  destruct r as [a | e']; simpl in Hin; [contradiction |].
  destruct Hin as [[= ->] | []]. reflexivity.
Qed.

Lemma lets_through_bind A B (m : M World A) (k : A -> M World B) :
  lets_through m -> (forall a, lets_through (k a)) -> lets_through (bind m k).
Proof.
  intros Hm Hk s. unfold bind. destruct (Hm s) as (evs1 & L1 & P1).
  destruct (m s) as [[a | e0] s'] eqn:Em; simpl in *.
  - destruct (Hk a s') as (evs2 & L2 & P2).
    exists (evs1 ++ evs2). split.
    + rewrite L2, L1, app_assoc. reflexivity.
    + intros e Hin He. apply in_app_or in Hin. destruct Hin as [Hin | Hin].
      * specialize (P1 e Hin He). discriminate.
      * exact (P2 e Hin He).
  - exists evs1. split; [exact L1 |].
    intros e Hin He. specialize (P1 e Hin He). injection P1 as ->.
    reflexivity.
Qed.

Lemma lets_through_when b (m : M World unit) :
  lets_through m -> lets_through (when b m).
Proof. intros H. destruct b; [exact H | apply lets_through_ret]. Qed.

Lemma lets_through_try_except A (m : M World A) handler :
  lets_through m ->
  (forall e, is_Exception e = false -> handler e = None) ->
  (forall e h, handler e = Some h -> lets_through h) ->
  lets_through (try_except m handler).
Proof.
  intros Hm Hn Hh s. unfold try_except. destruct (Hm s) as (evs1 & L1 & P1).
  destruct (m s) as [[a | e0] s'] eqn:Em; simpl in *.
  - exists evs1. split; [exact L1 | exact P1].
  - destruct (handler e0) as [h |] eqn:Eh.
    + destruct (Hh _ _ Eh s') as (evs2 & L2 & P2).
      exists (evs1 ++ evs2). split.
      * rewrite L2, L1, app_assoc. reflexivity.
      * intros e Hin He. apply in_app_or in Hin. destruct Hin as [Hin | Hin].
        -- specialize (P1 e Hin He). injection P1 as ->.
           rewrite (Hn _ He) in Eh. discriminate.
        -- exact (P2 e Hin He).
    + exists evs1. split; [exact L1 | exact P1].
Qed.

Lemma lets_through_buffer_all texts :
  lets_through (buffer_all (World := World) texts).
Proof.
  induction texts as [| t texts IH]; simpl; [apply lets_through_ret |].
  apply lets_through_bind; [| intros _; exact IH].
  apply lets_through_pure. reflexivity.
Qed.

Lemma lets_through_end_of_iteration ending :
  lets_through (end_of_iteration (World := World) ending).
Proof. destruct ending; [apply lets_through_throw | apply lets_through_ret]. Qed.

Lemma lets_through_send ev : lets_through (send env ev).
Proof. apply lets_through_call. discriminate. Qed.

Lemma lets_through_handle_items l :
  lets_through (handle_items env context l).
Proof.
  induction l as [| i l IH]; simpl; [apply lets_through_ret |].
  apply lets_through_bind; [| intros _; exact IH].
  destruct i; simpl.
  - apply lets_through_send.
  - apply lets_through_bind;
      [apply lets_through_buffer_all
      | intros _; apply lets_through_end_of_iteration].
  - apply lets_through_bind;
      [apply lets_through_buffer_all
      | intros _; apply lets_through_end_of_iteration].
  - apply lets_through_ret.
Qed.

(** The clause [except Exception] does not take a cancellation. *)
Lemma lets_through_stream_llm batch_input :
  lets_through (stream_llm env context batch_input).
Proof.
  apply lets_through_try_except.
  - apply lets_through_bind; [apply lets_through_call; discriminate |].
    intros a. apply lets_through_bind; [apply lets_through_handle_items |].
    intros _. apply lets_through_end_of_iteration.
  - intros e He. unfold report. rewrite He. reflexivity.
  - intros e h. unfold report. destruct (is_Exception e); [| discriminate].
    intros [= <-]. apply lets_through_send.
Qed.

Lemma lets_through_finish_turn client_uid :
  lets_through (finish_turn env context client_uid).
Proof.
  unfold finish_turn.
  apply lets_through_bind;
    [apply lets_through_pure; reflexivity | intros full].
  apply lets_through_bind;
    [apply lets_through_when, lets_through_call; discriminate | intros _].
  apply lets_through_bind;
    [apply lets_through_pure; reflexivity | intros pending].
  apply lets_through_bind.
  { apply lets_through_when, lets_through_bind;
      [apply lets_through_call; discriminate
      | intros _; apply lets_through_send]. }
  intros _.
  apply lets_through_bind; [apply lets_through_call; discriminate | intros _].
  apply lets_through_bind;
    [apply lets_through_when, lets_through_call; discriminate | intros _].
  apply lets_through_ret.
Qed.

Lemma lets_through_turn_body client_uid user_input images metadata :
  lets_through (turn_body env context client_uid user_input images metadata).
Proof.
  unfold turn_body.
  apply lets_through_bind; [apply lets_through_call; discriminate | intros _].
  apply lets_through_bind;
    [apply lets_through_call; discriminate | intros input_text].
  apply lets_through_bind;
    [apply lets_through_when, lets_through_call; discriminate | intros _].
  apply lets_through_bind; [apply lets_through_stream_llm | intros _].
  apply lets_through_finish_turn.
Qed.

(** *** The outer [try] *)

(** The function ends as its body does, and the cleanup routine runs
    on the state that the body leaves. *)
Lemma process_single_conversation_eq client_uid user_input images metadata s :
  process_single_conversation env context client_uid user_input images
    metadata s
  = (fst (turn_body env context client_uid user_input images metadata s),
     snd (cleanup env
            (snd (turn_body env context client_uid user_input images
                    metadata s)))).
Proof.
  unfold process_single_conversation, try_finally, try_except.
  destruct (turn_body env context client_uid user_input images metadata s)
    as [[a | e] s']; simpl; [reflexivity |].
  unfold reraise_cancelled. destruct (cls e); reflexivity.
Qed.

(** C9. Whatever the collaborators do, on every exit (a return, an
    error, a cancellation) the cleanup routine has run exactly once, as
    the last call of the function: the world that the function leaves is
    the one that [cleanup_conversation] makes of the world left by the
    steps of the turn, and these steps are the same whatever the routine
    is, so they never run it.  As soon as an awaited call or iteration of
    the turn raises [CancelledError], this exception is what the function
    raises to its caller, after the cleanup. *)
Theorem cleanup_once_and_cancellation_raised
  client_uid user_input images metadata s :
  let done :=
    process_single_conversation env context client_uid user_input images
      metadata s in
  let body :=
    turn_body env context client_uid user_input images metadata s in
  cleanups (log (snd done)) = S (cleanups (log s))
  /\ world (snd done) = cleanup_conversation env (world (snd body))
  /\ (forall f,
        turn_body (with_cleanup f env) context client_uid user_input images
          metadata s = body)
  /\ exists evs,
       log (snd done) = log s ++ evs ++ [EvCleanup]
       /\ cleanups evs = 0%nat
       /\ forall e, In (EvRaised e) evs -> cls e = CancelledError ->
                    fst done = Raise e.
Proof.
  intros done body. subst done body.
  rewrite process_single_conversation_eq. simpl.
  pose proof (quiet_turn_body client_uid user_input images metadata s) as Q.
  destruct (lets_through_turn_body client_uid user_input images metadata s)
    as (evs & L & P).
  split; [| split; [| split]].
  - rewrite cleanups_app, Q. unfold cleanups at 2. simpl. lia.
  - reflexivity.
  - intros f. reflexivity.
  - exists evs. split; [rewrite L, app_assoc; reflexivity |]. split.
    + rewrite L, cleanups_app in Q. lia.
    + intros e Hin Hc. apply (P e Hin). unfold is_Exception. rewrite Hc.
      reflexivity.
Qed.

(** *** Step 4: errors of the model layer *)

Lemma stream_llm_reports batch_input s s1 e :
  drain env context batch_input s = (Raise e, s1) ->
  is_Exception e = true ->
  stream_llm env context batch_input s = send env (ErrorEvent (msg e)) s1.
Proof.
  intros Hd He. unfold stream_llm, try_except, report.
  rewrite Hd, He. reflexivity.
Qed.

(** A turn that finishes returns the normalized [full_response]. *)
Lemma finish_turn_returns client_uid s v s' :
  finish_turn env context client_uid s = (Ok v, s') ->
  v = Normalizer.clean_response (full_response s).
Proof.
  unfold finish_turn, bind, read_full_response, read_task_list, ret.
  repeat match goal with
    | |- context [match ?m ?st with (_, _) => _ end] =>
        destruct (m st) as [[[] | ?] ?]
    end;
    intros [=]; congruence.
Qed.

(** C8, as the code has it. An exception of class [Exception] that
    leaves the draining of the agent's stream is caught and
    [websocket_send] is called with an error event that carries its
    message.  If that call returns, step 4 ends normally and the turn goes
    on with the normalization of the text buffered before the exception,
    which is what a turn that finishes returns; if that call raises, its
    exception leaves step 4. *)
Theorem stream_exception_reported batch_input client_uid s s1 e :
  drain env context batch_input s = (Raise e, s1) ->
  is_Exception e = true ->
  let sent := websocket_send env (ErrorEvent (msg e)) (world s1) in
  let s2 := {| world := snd sent;
               log := log s1
                      ++ EvSend (ErrorEvent (msg e)) :: outcome (fst sent);
               full_response := full_response s1 |} in
  stream_llm env context batch_input s = (fst sent, s2)
  /\ (fst sent = Ok tt ->
      (stream_llm env context batch_input ;;;
       finish_turn env context client_uid) s
      = finish_turn env context client_uid s2
      /\ forall v s3,
           finish_turn env context client_uid s2 = (Ok v, s3) ->
           v = Normalizer.clean_response (full_response s1)).
Proof.
  intros Hd He sent s2.
  assert (E : stream_llm env context batch_input s = (fst sent, s2)).
  { rewrite (@stream_llm_reports batch_input s s1 e Hd He).
    unfold send, call. subst sent s2.
    destruct (websocket_send env (ErrorEvent (msg e)) (world s1)).
    reflexivity. }
  split; [exact E |]. intros Hs. split.
  - unfold bind. rewrite E, Hs. reflexivity.
  - intros v s3 Hf. apply finish_turn_returns in Hf. exact Hf.
Qed.

End Conversation.

(** *** Turns on concrete collaborators *)

Lemma stream_exception_reported_witness :
  let s1 := {| world := tt;
               log := [EvChat; EvRaised model_error];
               full_response := of_string "Hello[smile]friend.I'm good" |} in
  let s2 := {| world := tt;
               log := [EvChat; EvRaised model_error;
                       EvSend (ErrorEvent (of_string "model overloaded"))];
               full_response := of_string "Hello[smile]friend.I'm good" |} in
  drain env_connected example_context (of_string "hi") (start tt)
  = (Raise model_error, s1)
  /\ stream_llm env_connected example_context (of_string "hi") (start tt)
     = (Ok tt, s2)
  /\ (stream_llm env_connected example_context (of_string "hi") ;;;
      finish_turn env_connected example_context (of_string "uid")) (start tt)
     = finish_turn env_connected example_context (of_string "uid") s2
  /\ forall v s3,
       finish_turn env_connected example_context (of_string "uid") s2
       = (Ok v, s3) ->
       v = Normalizer.clean_response (of_string "Hello[smile]friend.I'm good").
Proof.
  pose proof (@stream_exception_reported unit str unit str env_connected
                example_context (of_string "hi") (of_string "uid")
                (start tt) after_failure model_error eq_refl eq_refl)
    as [H1 H2].
  split; [reflexivity |]. split; [exact H1 |]. exact (H2 eq_refl).
Defined.

(** The whole turn on [env_connected]: the error is reported, the text
    buffered before it is normalized, spoken and returned. *)
Example turn_survives_model_error :
  example_turn env_connected
  = (Ok (of_string "Hello friend. I'm good"),
     {| world := tt;
        log := [EvStartSignals; EvProcessUserInput; EvChat;
                EvRaised model_error;
                EvSend (ErrorEvent (of_string "model overloaded"));
                EvSpeak (of_string "Hello friend. I'm good");
                EvGather; EvSend BackendSynthComplete; EvFinalize;
                EvCleanup];
        full_response := of_string "Hello[smile]friend.I'm good" |}).
Proof. vm_compute. reflexivity. Qed.

(** C8, as the specification words it, fails: when the client cannot
    be reached, the exception of the model layer is caught, but the error
    event is not delivered and the exception of [websocket_send] ends the
    turn before the normalization. *)
Lemma turn_aborted_when_report_fails :
  drain env_disconnected example_context (of_string "hi")
    {| world := tt; log := [EvStartSignals; EvProcessUserInput];
       full_response := [] |}
  = (Raise model_error,
     {| world := tt;
        log := [EvStartSignals; EvProcessUserInput; EvChat;
                EvRaised model_error];
        full_response := of_string "Hello[smile]friend.I'm good" |})
  /\ is_Exception model_error = true
  /\ example_turn env_disconnected
     = (Raise disconnected,
        {| world := tt;
           log := [EvStartSignals; EvProcessUserInput; EvChat;
                   EvRaised model_error;
                   EvSend (ErrorEvent (of_string "model overloaded"));
                   EvRaised disconnected;
                   EvCleanup];
           full_response := of_string "Hello[smile]friend.I'm good" |}).
Proof. split; [| split]; vm_compute; reflexivity. Qed.

Lemma cleanup_once_and_cancellation_raised_witness :
  cleanups (log (snd counting_turn)) = 1%nat
  /\ world (snd counting_turn) = 1%nat
  /\ log (snd counting_turn)
     = [EvStartSignals; EvProcessUserInput; EvRaised cancelled; EvCleanup]
  /\ fst counting_turn = Raise cancelled.
Proof.
  destruct (@cleanup_once_and_cancellation_raised nat str unit str
              env_counting example_context (of_string "uid")
              (of_string "hi") None None (start 0%nat))
    as (H1 & H2 & _ & evs & H3 & _ & H4).
  split; [exact H1 |]. split; [exact H2 |]. split; [reflexivity |].
  apply H4; [| reflexivity].
  change ([EvStartSignals; EvProcessUserInput; EvRaised cancelled]
          ++ [EvCleanup] = evs ++ [EvCleanup]) in H3.
  apply app_inj_tail in H3. destruct H3 as [<- _].
  simpl. auto.
Defined.

(** *** What a turn logs *)

Section ConversationLog.

Variable World : Type.
Variable UserInput : Type.
Variable Images : Type.
Variable BatchInput : Type.
Variable env : Collaborators World UserInput Images BatchInput.
Variable context : ServiceContext.

Implicit Types (s : state World) (e : exn) (batch_input : BatchInput)
  (user_input : UserInput) (images : option Images)
  (metadata : option Metadata) (client_uid : str).

Section Emits.

Variable P : event -> Prop.
Hypothesis P_raised : forall e, P (EvRaised e).

Lemma emits_pure A (m : M World A) :
  (forall s, log (snd (m s)) = log s) -> emits P m.
Proof.
  intros H s. exists []. rewrite app_nil_r. split; [apply H | constructor].
Qed.

Lemma emits_throw A e : emits P (throw (World := World) (A := A) e).
Proof.
  intros s. exists [EvRaised e]. split; [reflexivity |].
  constructor; [apply P_raised | constructor].
Qed.

Lemma emits_call A ev (f : World -> result A * World) :
  P ev -> emits P (call ev f).
Proof.
  intros H s. unfold call. destruct (f (world s)) as [r w]. simpl.
  exists (ev :: outcome r). split; [reflexivity |].
  constructor; [exact H |].
  destruct r; simpl; [constructor |].
  constructor; [apply P_raised | constructor].
Qed.

Lemma emits_bind A B (m : M World A) (k : A -> M World B) :
  emits P m -> (forall a, emits P (k a)) -> emits P (bind m k).
Proof.
  intros Hm Hk s. unfold bind. destruct (Hm s) as (evs1 & L1 & P1).
  destruct (m s) as [[a | e0] s']; simpl in *.
  - destruct (Hk a s') as (evs2 & L2 & P2).
    exists (evs1 ++ evs2). split.
    + rewrite L2, L1, app_assoc. reflexivity.
    + apply Forall_app. auto.
  - exists evs1. auto.
Qed.

Lemma emits_when b (m : M World unit) :
  (b = true -> emits P m) -> emits P (when b m).
Proof.
  intros H. destruct b; [apply H; reflexivity |].
  apply emits_pure. reflexivity.
Qed.

Lemma emits_try_except A (m : M World A) handler :
  emits P m -> (forall e h, handler e = Some h -> emits P h) ->
  emits P (try_except m handler).
Proof.
  intros Hm Hh s. unfold try_except. destruct (Hm s) as (evs1 & L1 & P1).
  destruct (m s) as [[a | e0] s']; simpl in *; [exists evs1; auto |].
  destruct (handler e0) as [h |] eqn:Eh; [| exists evs1; auto].
  destruct (Hh _ _ Eh s') as (evs2 & L2 & P2).
  exists (evs1 ++ evs2). split.
  - rewrite L2, L1, app_assoc. reflexivity.
  - apply Forall_app. auto.
Qed.

Lemma emits_buffer_all texts : emits P (buffer_all (World := World) texts).
Proof.
  induction texts as [| t texts IH]; simpl;
    [apply emits_pure; reflexivity |].
  apply emits_bind; [apply emits_pure; reflexivity | intros _; exact IH].
Qed.

Lemma emits_end_of_iteration ending :
  emits P (end_of_iteration (World := World) ending).
Proof.
  destruct ending; [apply emits_throw | apply emits_pure; reflexivity].
Qed.

(** Step 4 only chats, forwards tool statuses and reports errors. *)
Lemma emits_stream_llm batch_input :
  P EvChat ->
  (forall p name, P (EvSend (ToolCallStatus p name))) ->
  (forall message, P (EvSend (ErrorEvent message))) ->
  emits P (stream_llm env context batch_input).
Proof.
  intros Hc Ht He. apply emits_try_except.
  - apply emits_bind; [apply emits_call, Hc | intros a].
    apply emits_bind; [| intros _; apply emits_end_of_iteration].
    induction (items a) as [| i l IH]; simpl;
      [apply emits_pure; reflexivity |].
    apply emits_bind; [| intros _; exact IH].
    destruct i; simpl.
    + apply emits_call, Ht.
    + apply emits_bind;
        [apply emits_buffer_all | intros _; apply emits_end_of_iteration].
    + apply emits_bind;
        [apply emits_buffer_all | intros _; apply emits_end_of_iteration].
    + apply emits_pure. reflexivity.
  - intros e h. unfold report. destruct (is_Exception e); [| discriminate].
    intros [= <-]. apply emits_call, He.
Qed.

End Emits.

(** *** The draining of the stream *)

Lemma buffer_all_run texts s :
  buffer_all texts s
  = (Ok tt, {| world := world s; log := log s;
               full_response := full_response s ++ concat texts |}).
Proof.
  revert s. induction texts as [| t texts IH]; intros s; simpl.
  - unfold ret. rewrite app_nil_r. destruct s; reflexivity.
  - unfold bind, buffer. rewrite IH. simpl. rewrite app_assoc. reflexivity.
Qed.

Lemma handle_items_run l s s' :
  handle_items env context l s = (Ok tt, s') ->
  log s' = log s
           ++ map (fun p => EvSend (ToolCallStatus p (character_name context)))
                (statuses l)
  /\ full_response s' = full_response s ++ concat (texts l).
Proof.
  revert s. induction l as [| i l IH]; intros s; simpl.
  - intros [= <-]. rewrite !app_nil_r. auto.
  - unfold bind at 1. destruct (handle_item env context i s) as [[[] | e] s1] eqn:E;
      [| discriminate].
    intros H. destruct (IH _ H) as [L F]. rewrite L, F.
    destruct i as [p | ts ending | ts ending |]; simpl in E.
    + unfold send, call in E.
      destruct (websocket_send env _ (world s)) as [[[] | e] w];
        [| discriminate].
      injection E as <-. simpl. rewrite <- !app_assoc. auto.
    + unfold bind in E. rewrite buffer_all_run in E.
      destruct ending as [e |]; simpl in E; [discriminate |].
      injection E as <-. simpl. rewrite concat_app, !app_assoc. auto.
    + unfold bind in E. rewrite buffer_all_run in E.
      destruct ending as [e |]; simpl in E; [discriminate |].
      injection E as <-. simpl. rewrite concat_app, !app_assoc. auto.
    + injection E as <-. simpl. auto.
Qed.

(** When the draining of the agent's stream ends without an exception,
    the tool statuses have gone to the client one by one, in the order of
    the stream and under the character's name, and [full_response] has
    grown by the texts of the sentences and the transcripts, in order;
    other items leave no trace. *)
Theorem drain_forwards_and_buffers batch_input s s' stream w :
  chat env batch_input (world s) = (Ok stream, w) ->
  drain env context batch_input s = (Ok tt, s') ->
  log s' = log s
           ++ EvChat
           :: map (fun p => EvSend (ToolCallStatus p (character_name context)))
                (statuses (items stream))
  /\ full_response s' = full_response s ++ concat (texts (items stream)).
Proof.
  intros Hc. unfold drain, bind, call. rewrite Hc. simpl.
  destruct (handle_items env context (items stream) _) as [[[] | e] s1] eqn:E;
    [| discriminate].
  destruct (handle_items_run _ _ E) as [L F]. simpl in L, F.
  destruct (stream_ending stream); simpl; [discriminate |].
  intros [= <-]. rewrite L, F, <- app_assoc. auto.
Qed.

(** *** The end of the turn *)

Lemma bind_returns A B (m : M World A) (k : A -> M World B) s b s' :
  bind m k s = (Ok b, s') ->
  exists a s1, m s = (Ok a, s1) /\ k a s1 = (Ok b, s').
Proof.
  unfold bind. destruct (m s) as [[a | e] s1]; [| discriminate].
  intros H. exists a, s1. auto.
Qed.

Lemma call_returns A ev (f : World -> result A * World) s a s' :
  call ev f s = (Ok a, s') ->
  log s' = log s ++ [ev] /\ full_response s' = full_response s.
Proof.
  unfold call. destruct (f (world s)) as [[a' | e] w]; [| discriminate].
  intros [= _ <-]. simpl. auto.
Qed.

Lemma call_world A ev (f : World -> result A * World) s a s' :
  call ev f s = (Ok a, s') -> world s' = snd (f (world s)).
Proof.
  unfold call. destruct (f (world s)) as [[a' | e] w]; [| discriminate].
  intros [= _ <-]. reflexivity.
Qed.

(** The function is its steps 1 to 3, then step 4, then steps 5 to 9. *)
Lemma turn_body_steps client_uid user_input images metadata s :
  turn_body env context client_uid user_input images metadata s
  = (batch_input <- steps_1_to_3 env context user_input images metadata ;;
     stream_llm env context batch_input ;;;
     finish_turn env context client_uid) s.
Proof.
  unfold turn_body, steps_1_to_3, skips_history, bind, ret.
  destruct (call EvStartSignals _ s) as [[[] | e] s1]; [| reflexivity].
  destruct (call EvProcessUserInput _ s1) as [[input_text | e] s2];
    [| reflexivity].
  cbv zeta. destruct (when _ _ s2) as [[[] | e] s3]; reflexivity.
Qed.

Lemma emits_steps_1_to_3 user_input images metadata :
  emits before_finish (steps_1_to_3 env context user_input images metadata).
Proof.
  assert (R : forall e, before_finish (EvRaised e)) by (intros; exact I).
  unfold steps_1_to_3.
  apply emits_bind; [apply (@emits_call before_finish R); exact I |].
  intros _.
  apply emits_bind; [apply (@emits_call before_finish R); exact I |].
  intros input_text. cbv zeta.
  apply emits_bind; [| intros _; apply emits_pure; reflexivity].
  apply emits_when. intros _.
  apply (@emits_call before_finish R). reflexivity.
Qed.

Lemma when_returns b (m : M World unit) (evs : list event) s s' :
  (forall s s', m s = (Ok tt, s') ->
                log s' = log s ++ evs
                /\ full_response s' = full_response s) ->
  when b m s = (Ok tt, s') ->
  log s' = log s ++ (if b then evs else [])
  /\ full_response s' = full_response s.
Proof.
  intros H. destruct b; simpl; [apply H |].
  intros [= <-]. rewrite app_nil_r. auto.
Qed.

(** What steps 5 to 9 log when they all return. *)
Lemma finish_turn_run client_uid s v s' :
  finish_turn env context client_uid s = (Ok v, s') ->
  v = Normalizer.clean_response (full_response s)
  /\ full_response s' = full_response s
  /\ log s'
     = log s
       ++ (if truthy v then [EvSpeak v] else [])
       ++ (if task_list env (after_speak env context v (world s))
           then [EvGather; EvSend BackendSynthComplete] else [])
       ++ EvFinalize
       :: (if history_enabled context && truthy v
           then [EvStoreMessage (of_string "ai") v]
           else []).
Proof.
  unfold finish_turn. intros H.
  apply bind_returns in H. destruct H as (full & s0 & H0 & H).
  injection H0 as <- <-. cbv zeta in H.
  set (cleaned := Normalizer.clean_response (full_response s)) in *.
  apply bind_returns in H. destruct H as ([] & s1 & H1 & H).
  assert (W1 : world s1 = after_speak env context cleaned (world s)).
  { unfold after_speak. destruct (truthy cleaned); simpl in H1.
    - apply call_world in H1. exact H1.
    - injection H1 as <-. reflexivity. }
  apply (@when_returns _ _ [EvSpeak cleaned] _ _) in H1;
    [| intros ? ? C; apply call_returns in C; exact C].
  destruct H1 as [L1 F1].
  apply bind_returns in H. destruct H as (pending & s2 & H2 & H).
  injection H2 as <- <-.
  apply bind_returns in H. destruct H as ([] & s3 & H3 & H).
  apply (@when_returns _ _ [EvGather; EvSend BackendSynthComplete] _ _) in H3.
  2:{ intros t t' C. apply bind_returns in C.
      destruct C as ([] & t1 & C1 & C2).
      apply call_returns in C1. apply call_returns in C2.
      destruct C1 as [La Fa], C2 as [Lb Fb].
      rewrite Lb, La, Fb, Fa, <- app_assoc. auto. }
  destruct H3 as [L3 F3].
  apply bind_returns in H. destruct H as ([] & s4 & H4 & H).
  apply call_returns in H4. destruct H4 as [L4 F4].
  apply bind_returns in H. destruct H as ([] & s5 & H5 & H).
  apply (@when_returns _ _ [EvStoreMessage (of_string "ai") cleaned] _ _)
    in H5;
    [| intros ? ? C; apply call_returns in C; exact C].
  destruct H5 as [L5 F5].
  injection H as <- <-.
  split; [reflexivity |]. split; [congruence |].
  rewrite L5, L4, L3, L1, W1, <- !app_assoc. reflexivity.
Qed.

(** A turn that returns has run the steps in this order: the steps 1 to
    3 and step 4, which returned; then [speak] with the normalized text,
    exactly when this text is not empty; then, exactly when the task list
    of the TTS manager is not empty after that, the gathering of the tasks
    and after it the signal that the synthesis is complete; then the
    finalization; then the storing of the AI message, exactly when a
    history is set and the text is not empty, whether or not the turn
    asked to skip the history; and the cleanup last.  The text returned is
    the normalization of what step 4 buffered. *)
Theorem completed_turn_order client_uid user_input images metadata s v s' :
  process_single_conversation env context client_uid user_input images
    metadata s = (Ok v, s') ->
  exists batch_input s3 s4,
    steps_1_to_3 env context user_input images metadata s
    = (Ok batch_input, s3)
    /\ stream_llm env context batch_input s3 = (Ok tt, s4)
    /\ v = Normalizer.clean_response (full_response s4)
    /\ exists before,
         log s4 = log s ++ before
         /\ Forall before_finish before
         /\ log s'
            = log s4
              ++ (if truthy v then [EvSpeak v] else [])
              ++ (if task_list env (after_speak env context v (world s4))
                  then [EvGather; EvSend BackendSynthComplete] else [])
              ++ EvFinalize
              :: (if history_enabled context && truthy v
                  then [EvStoreMessage (of_string "ai") v]
                  else [])
              ++ [EvCleanup].
Proof.
  rewrite process_single_conversation_eq, turn_body_steps.
  unfold bind.
  destruct (steps_1_to_3 env context user_input images metadata s)
    as [[batch_input | e] s3] eqn:E3; [| simpl; discriminate].
  destruct (stream_llm env context batch_input s3) as [[[] | e] s4] eqn:E4;
    [| simpl; discriminate].
  destruct (finish_turn env context client_uid s4) as [[v' | e] s5] eqn:E5;
    [| simpl; discriminate].
  simpl. intros [= -> <-].
  exists batch_input, s3, s4.
  split; [reflexivity |]. split; [exact E4 |].
  apply finish_turn_run in E5. destruct E5 as (Hv & _ & L).
  split; [exact Hv |].
  destruct (emits_steps_1_to_3 user_input images metadata s)
    as (evs1 & L1 & P1).
  rewrite E3 in L1. simpl in L1.
  destruct (@emits_stream_llm before_finish (fun _ => I) batch_input
              I (fun _ _ => I) (fun _ => I) s3) as (evs4 & L4 & P4).
  rewrite E4 in L4. simpl in L4.
  exists (evs1 ++ evs4).
  split; [rewrite L4, L1, app_assoc; reflexivity |].
  split; [apply Forall_app; auto |].
  simpl. rewrite L, <- !app_assoc. reflexivity.
Qed.

(** *** The history *)

(** The messages that a turn may store. *)
Lemma emits_turn_body (P : event -> Prop)
  client_uid user_input images metadata :
  (forall ev,
     match ev with
     | EvStoreMessage role _ =>
         history_enabled context = true
         /\ (role = of_string "ai"
             \/ role = of_string "human" /\ skips_history metadata = false)
     | EvCleanup => False
     | _ => True
     end -> P ev) ->
  emits P (turn_body env context client_uid user_input images metadata).
Proof.
  intros H.
  assert (R : forall e, P (EvRaised e)) by (intros; apply H; exact I).
  unfold turn_body.
  apply emits_bind; [apply (@emits_call P R), H; exact I | intros _].
  apply emits_bind; [apply (@emits_call P R), H; exact I |].
  intros input_text. cbv zeta.
  apply emits_bind.
  { apply emits_when. intros Hb.
    apply andb_prop in Hb. destruct Hb as [Hh Hs].
    apply (@emits_call P R), H. split; [exact Hh |].
    right. split; [reflexivity |].
    unfold skips_history. destruct metadata as [m |]; [| reflexivity].
    destruct (skip_history m); [discriminate | reflexivity]. }
  intros _.
  apply emits_bind.
  { apply (@emits_stream_llm P R); intros; apply H; exact I. }
  intros _. unfold finish_turn.
  apply emits_bind; [apply emits_pure; reflexivity | intros full].
  cbv zeta.
  apply emits_bind.
  { apply emits_when. intros _. apply (@emits_call P R), H. exact I. }
  intros _.
  apply emits_bind; [apply emits_pure; reflexivity | intros pending].
  apply emits_bind.
  { apply emits_when. intros _.
    apply emits_bind; [| intros _]; apply (@emits_call P R), H; exact I. }
  intros _.
  apply emits_bind; [apply (@emits_call P R), H; exact I | intros _].
  apply emits_bind; [| intros _; apply emits_pure; reflexivity].
  apply emits_when. intros Hb.
  apply andb_prop in Hb. destruct Hb as [Hh _].
  apply (@emits_call P R), H. split; [exact Hh |].
  left. reflexivity.
Qed.

(** However the turn ends, every message it hands to [store_message] is
    stored when a history is set ([history_uid] is a non-empty string),
    and is the AI message or the human message; the human message is not
    stored when the metadata ask to skip the history. *)
Theorem history_respected client_uid user_input images metadata s :
  exists evs,
    log (snd (process_single_conversation env context client_uid user_input
                images metadata s))
    = log s ++ evs
    /\ forall role content,
         In (EvStoreMessage role content) evs ->
         history_enabled context = true
         /\ (role = of_string "ai"
             \/ role = of_string "human" /\ skips_history metadata = false).
Proof.
  rewrite process_single_conversation_eq. simpl.
  destruct (@emits_turn_body
              (fun ev =>
                 match ev with
                 | EvStoreMessage role _ =>
                     history_enabled context = true
                     /\ (role = of_string "ai"
                         \/ role = of_string "human"
                            /\ skips_history metadata = false)
                 | EvCleanup => False
                 | _ => True
                 end)
              client_uid user_input images metadata (fun ev H => H) s)
    as (evs & L & P).
  exists (evs ++ [EvCleanup]). split; [rewrite L, app_assoc; reflexivity |].
  intros role content Hin. apply in_app_or in Hin.
  destruct Hin as [Hin | [C | []]]; [| discriminate].
  rewrite Forall_forall in P. exact (P _ Hin).
Qed.

(** *** No exception is lost *)

Lemma accounted_pure A (m : M World A) :
  (forall s, log (snd (m s)) = log s) -> accounted m.
Proof.
  intros H s. exists []. rewrite app_nil_r. split; [apply H |].
  intros e [].
Qed.

Lemma accounted_throw A e : accounted (throw (World := World) (A := A) e).
Proof.
  intros s. exists [EvRaised e]. split; [reflexivity |].
  intros e' [[= <-] | []]. left. reflexivity.
Qed.

Lemma accounted_call A ev (f : World -> result A * World) :
  (forall e, ev <> EvRaised e) -> accounted (call ev f).
Proof.
  intros Hev s. unfold call. destruct (f (world s)) as [r w]. simpl.
  exists (ev :: outcome r). split; [reflexivity |].
  intros e [E | Hin]; [elim (Hev e E) |].
  destruct r as [a | e']; simpl in Hin; [contradiction |].
  destruct Hin as [[= ->] | []]. left. reflexivity.
Qed.

Lemma accounted_bind A B (m : M World A) (k : A -> M World B) :
  accounted m -> (forall a, accounted (k a)) -> accounted (bind m k).
Proof.
  intros Hm Hk s. unfold bind. destruct (Hm s) as (evs1 & L1 & P1).
  destruct (m s) as [[a | e0] s'] eqn:Em; simpl in *.
  - destruct (Hk a s') as (evs2 & L2 & P2).
    exists (evs1 ++ evs2). split.
    + rewrite L2, L1, app_assoc. reflexivity.
    + intros e Hin. apply in_app_or in Hin. destruct Hin as [Hin | Hin].
      * destruct (P1 e Hin) as [C | [He Hs]]; [discriminate |].
        right. split; [exact He | apply in_or_app; left; exact Hs].
      * destruct (P2 e Hin) as [C | [He Hs]]; [left; exact C |].
        right. split; [exact He | apply in_or_app; right; exact Hs].
  - exists evs1. split; [exact L1 |].
    intros e Hin. destruct (P1 e Hin) as [C | C]; [left | right; exact C].
    injection C as ->. reflexivity.
Qed.

Lemma accounted_when b (m : M World unit) : accounted m -> accounted (when b m).
Proof.
  intros H. destruct b; [exact H | apply accounted_pure; reflexivity].
Qed.

Lemma accounted_handle_items l : accounted (handle_items env context l).
Proof.
  assert (B : forall texts ending,
             accounted (buffer_all (World := World) texts ;;;
                        end_of_iteration ending)).
  { intros texts ending. apply accounted_bind.
    - induction texts as [| t texts IH]; simpl;
        [apply accounted_pure; reflexivity |].
      apply accounted_bind;
        [apply accounted_pure; reflexivity | intros _; exact IH].
    - intros _. destruct ending;
        [apply accounted_throw | apply accounted_pure; reflexivity]. }
  induction l as [| i l IH]; simpl; [apply accounted_pure; reflexivity |].
  apply accounted_bind; [| intros _; exact IH].
  destruct i; simpl;
    [apply accounted_call; discriminate | apply B | apply B
    | apply accounted_pure; reflexivity].
Qed.

(** The handler of step 4 sends the error event of the exception that it
    catches. *)
Lemma accounted_stream_llm batch_input :
  accounted (stream_llm env context batch_input).
Proof.
  assert (D : accounted (drain env context batch_input)).
  { apply accounted_bind; [apply accounted_call; discriminate | intros a].
    apply accounted_bind; [apply accounted_handle_items | intros _].
    destruct (stream_ending a);
      [apply accounted_throw | apply accounted_pure; reflexivity]. }
  intros s. unfold stream_llm, try_except. destruct (D s) as (evs1 & L1 & P1).
  destruct (drain env context batch_input s) as [[a | e0] s'] eqn:Em;
    simpl in *; [exists evs1; auto |].
  unfold report. destruct (is_Exception e0) eqn:He0.
  - unfold send, call.
    destruct (websocket_send env (ErrorEvent (msg e0)) (world s'))
      as [r w]. simpl.
    exists (evs1 ++ EvSend (ErrorEvent (msg e0)) :: outcome r). split;
      [rewrite L1, app_assoc; reflexivity |].
    intros e Hin. apply in_app_or in Hin. destruct Hin as [Hin | Hin].
    + right. destruct (P1 e Hin) as [C | [He Hs]].
      * injection C as ->. split; [exact He0 |].
        apply in_or_app. right. left. reflexivity.
      * split; [exact He | apply in_or_app; left; exact Hs].
    + destruct Hin as [C | Hin]; [discriminate |].
      destruct r as [u | e']; simpl in Hin; [contradiction |].
      destruct Hin as [[= ->] | []]. left. reflexivity.
  - exists evs1. auto.
Qed.

(** *** The steps that do not report *)

Lemma fail_fast_pure A (m : M World A) :
  (forall s, log (snd (m s)) = log s) -> fail_fast m.
Proof.
  intros H s. exists []. rewrite app_nil_r. split; [apply H |].
  split; [intros message [] | intros e []].
Qed.

Lemma fail_fast_call A ev (f : World -> result A * World) :
  (forall e, ev <> EvRaised e) ->
  (forall message, ev <> EvSend (ErrorEvent message)) ->
  fail_fast (call ev f).
Proof.
  intros Hr He s. unfold call. destruct (f (world s)) as [r w]. simpl.
  exists (ev :: outcome r). split; [reflexivity |]. split.
  - intros message [E | Hin]; [elim (He message E) |].
    destruct r; simpl in Hin; [contradiction |].
    destruct Hin as [E | []]. discriminate.
  - intros e [E | Hin]; [elim (Hr e E) |].
    destruct r as [a | e']; simpl in Hin; [contradiction |].
    destruct Hin as [[= ->] | []]. reflexivity.
Qed.

Lemma fail_fast_bind A B (m : M World A) (k : A -> M World B) :
  fail_fast m -> (forall a, fail_fast (k a)) -> fail_fast (bind m k).
Proof.
  intros Hm Hk s. unfold bind. destruct (Hm s) as (evs1 & L1 & N1 & P1).
  destruct (m s) as [[a | e0] s'] eqn:Em; simpl in *.
  - destruct (Hk a s') as (evs2 & L2 & N2 & P2).
    exists (evs1 ++ evs2). split; [rewrite L2, L1, app_assoc; reflexivity |].
    split.
    + intros message Hin. apply in_app_or in Hin.
      destruct Hin as [Hin | Hin]; [exact (N1 _ Hin) | exact (N2 _ Hin)].
    + intros e Hin. apply in_app_or in Hin. destruct Hin as [Hin | Hin].
      * specialize (P1 e Hin). discriminate.
      * exact (P2 e Hin).
  - exists evs1. split; [exact L1 |]. split; [exact N1 |].
    intros e Hin. specialize (P1 e Hin). injection P1 as ->. reflexivity.
Qed.

Lemma fail_fast_when b (m : M World unit) : fail_fast m -> fail_fast (when b m).
Proof.
  intros H. destruct b; [exact H | apply fail_fast_pure; reflexivity].
Qed.

Lemma fail_fast_steps_1_to_3 user_input images metadata :
  fail_fast (steps_1_to_3 env context user_input images metadata).
Proof.
  unfold steps_1_to_3.
  apply fail_fast_bind; [apply fail_fast_call; discriminate | intros _].
  apply fail_fast_bind;
    [apply fail_fast_call; discriminate | intros input_text].
  cbv zeta.
  apply fail_fast_bind;
    [apply fail_fast_when, fail_fast_call; discriminate | intros _].
  apply fail_fast_pure. reflexivity.
Qed.

Lemma fail_fast_finish_turn client_uid :
  fail_fast (finish_turn env context client_uid).
Proof.
  unfold finish_turn.
  apply fail_fast_bind; [apply fail_fast_pure; reflexivity | intros full].
  cbv zeta.
  apply fail_fast_bind;
    [apply fail_fast_when, fail_fast_call; discriminate | intros _].
  apply fail_fast_bind; [apply fail_fast_pure; reflexivity | intros pending].
  apply fail_fast_bind.
  { apply fail_fast_when, fail_fast_bind;
      [| intros _]; apply fail_fast_call; discriminate. }
  intros _.
  apply fail_fast_bind; [apply fail_fast_call; discriminate | intros _].
  apply fail_fast_bind;
    [apply fail_fast_when, fail_fast_call; discriminate | intros _].
  apply fail_fast_pure. reflexivity.
Qed.

(** No exception is lost, and only step 4 reports.  The events of a
    turn are those of the steps 1 to 3, then those of step 4, then those
    of the steps 5 to 9, then the cleanup.  An exception that a call of
    the steps 1 to 3 or 5 to 9 raises is what the function raises to its
    caller, and these steps send no error event.  An exception that a call
    or an iteration of step 4 raises is what the function raises, or it is
    an [Exception] whose message went to [websocket_send] in an error
    event. *)
Theorem no_exception_lost client_uid user_input images metadata s :
  let done :=
    process_single_conversation env context client_uid user_input images
      metadata s in
  let first := steps_1_to_3 env context user_input images metadata s in
  exists evs123 evs4 evs59,
    log (snd done) = log s ++ evs123 ++ evs4 ++ evs59 ++ [EvCleanup]
    /\ log (snd first) = log s ++ evs123
    /\ (forall batch_input s3,
          first = (Ok batch_input, s3) ->
          log (snd (stream_llm env context batch_input s3)) = log s3 ++ evs4
          /\ forall s4,
               stream_llm env context batch_input s3 = (Ok tt, s4) ->
               log (snd (finish_turn env context client_uid s4))
               = log s4 ++ evs59)
    /\ (forall e, In (EvRaised e) (evs123 ++ evs59) -> fst done = Raise e)
    /\ (forall message,
          ~ In (EvSend (ErrorEvent message)) (evs123 ++ evs59))
    /\ (forall e,
          In (EvRaised e) evs4 ->
          fst done = Raise e
          \/ (is_Exception e = true
              /\ In (EvSend (ErrorEvent (msg e))) evs4)).
Proof.
  intros done first. subst done first.
  rewrite process_single_conversation_eq, turn_body_steps. unfold bind.
  destruct (fail_fast_steps_1_to_3 user_input images metadata s)
    as (evs1 & L1 & N1 & P1).
  destruct (steps_1_to_3 env context user_input images metadata s)
    as [[batch_input | e1] s3]; simpl in L1, P1.
  - destruct (accounted_stream_llm batch_input s3) as (evs4 & L4 & P4).
    destruct (stream_llm env context batch_input s3) as [[[] | e4] s4] eqn:E4;
      simpl in L4, P4.
    + destruct (fail_fast_finish_turn client_uid s4) as (evs5 & L5 & N5 & P5).
      exists evs1, evs4, evs5. simpl.
      split; [rewrite L5, L4, L1, <- !app_assoc; reflexivity |].
      split; [exact L1 |]. split.
      { intros b s3' [= <- <-]. rewrite E4. simpl. split; [exact L4 |].
        intros s4' [= <-]. exact L5. }
      split.
      { intros e Hin. apply in_app_or in Hin.
        destruct Hin as [Hin | Hin];
          [specialize (P1 e Hin); discriminate | exact (P5 e Hin)]. }
      split.
      { intros message Hin. apply in_app_or in Hin.
        destruct Hin as [Hin | Hin]; [exact (N1 _ Hin) | exact (N5 _ Hin)]. }
      intros e Hin. destruct (P4 e Hin) as [C | C];
        [discriminate | right; exact C].
    + exists evs1, evs4, []. simpl.
      split; [rewrite L4, L1, <- !app_assoc; reflexivity |].
      split; [exact L1 |]. split.
      { intros b s3' [= <- <-]. rewrite E4. simpl. split; [exact L4 |].
        intros s4' C. discriminate. }
      rewrite app_nil_r. split.
      { intros e Hin. specialize (P1 e Hin). discriminate. }
      split; [exact N1 |].
      intros e Hin. destruct (P4 e Hin) as [C | C];
        [left; injection C as ->; reflexivity | right; exact C].
  - exists evs1, [], []. simpl.
    split; [rewrite L1, <- app_assoc; reflexivity |].
    split; [exact L1 |]. split; [intros b s3' C; discriminate |].
    rewrite app_nil_r. split.
    { intros e Hin. specialize (P1 e Hin). injection P1 as ->.
      reflexivity. }
    split; [exact N1 |].
    intros e [].
Qed.

End ConversationLog.

Lemma drain_forwards_and_buffers_witness :
  exists s',
    drain env_speaking example_context (of_string "hi") (start tt)
    = (Ok tt, s')
    /\ log s'
       = [EvChat;
          EvSend (ToolCallStatus
                    [(of_string "tool_name", of_string "get_weather")]
                    (of_string "Mao"))]
    /\ full_response s' = of_string "One moment. It is sunny. [smile]".
Proof.
  eexists. split; [reflexivity |].
  exact (@drain_forwards_and_buffers unit str unit str env_speaking
           example_context (of_string "hi") (start tt) _ speaking_stream tt
           eq_refl eq_refl).
Defined.

Lemma completed_turn_order_witness :
  let v := of_string "One moment. It is sunny." in
  let status :=
    ToolCallStatus [(of_string "tool_name", of_string "get_weather")]
      (of_string "Mao") in
  fst tasks_turn = Ok v
  /\ log (snd tasks_turn)
     = [EvStartSignals; EvProcessUserInput; EvChat; EvSend status;
        EvSpeak v; EvGather; EvSend BackendSynthComplete; EvFinalize;
        EvStoreMessage (of_string "ai") v; EvCleanup]
  /\ exists s4 before,
       log s4 = before
       /\ Forall before_finish before
       /\ log (snd tasks_turn)
          = log s4
            ++ [EvSpeak v]
            ++ (if task_list env_tasks
                     (after_speak env_tasks context_with_history v
                        (world s4))
                then [EvGather; EvSend BackendSynthComplete] else [])
            ++ [EvFinalize; EvStoreMessage (of_string "ai") v; EvCleanup].
Proof.
  intros v status.
  assert (E : tasks_turn = (Ok v, snd tasks_turn))
    by (vm_compute; reflexivity).
  split; [vm_compute; reflexivity |]. split; [vm_compute; reflexivity |].
  destruct (@completed_turn_order nat str unit str env_tasks
              context_with_history (of_string "uid") (of_string "hi") None
              (Some {| skip_history := true |}) (start 0%nat) v
              (snd tasks_turn) E)
    as (batch_input & s3 & s4 & _ & _ & _ & before & L4 & B & L).
  exists s4, before. split; [exact L4 |]. split; [exact B | exact L].
Defined.

End TurnFacts.

(* ================================================================= *)
(** ** Properties of [generate_audio] *)

Module TTSFacts.
Import Py Normalizer TTS.

(** *** The removal of annotations *)

Lemma annotation_at_consumes t rest :
  annotation_at t = Some rest -> (List.length rest < List.length t)%nat.
Proof.
  destruct t as [| c r]; simpl; [discriminate |].
  destruct (c =? LBRACKET)%N; [| discriminate].
  intros H. destruct (NormalizerFacts.after_close_suffix _ H) as [pre [-> _]].
  rewrite length_app. lia.
Qed.

Lemma remove_annotations_fuel_enough n m t :
  (List.length t < n)%nat -> (List.length t < m)%nat ->
  remove_annotations_fuel n t = remove_annotations_fuel m t.
Proof.
  revert m t. induction n as [| n IH]; intros m t Hn Hm; [lia |].
  destruct m as [| m]; [lia |]. simpl.
  destruct (annotation_at t) as [rest |] eqn:E.
  - apply annotation_at_consumes in E. apply IH; lia.
  - destruct t as [| c r]; [reflexivity |]. simpl in Hn, Hm.
    f_equal. apply IH; lia.
Qed.

(** The equation of the scan, free of fuel. *)
Lemma remove_annotations_eq t :
  remove_annotations t
  = match annotation_at t with
    | Some rest => remove_annotations rest
    | None =>
        match t with
        | [] => []
        | c :: r => c :: remove_annotations r
        end
    end.
Proof.
  unfold remove_annotations at 1.
  change (remove_annotations_fuel (S (List.length t)) t)
    with (match annotation_at t with
          | Some rest => remove_annotations_fuel (List.length t) rest
          | None =>
              match t with
              | [] => []
              | c :: r => c :: remove_annotations_fuel (List.length t) r
              end
          end).
  destruct (annotation_at t) as [rest |] eqn:E.
  - apply annotation_at_consumes in E.
    apply remove_annotations_fuel_enough; lia.
  - destruct t as [| c r]; [reflexivity |]. f_equal.
Qed.

Lemma remove_annotations_scan_ind (P : str -> str -> Prop) :
  P [] [] ->
  (forall t rest, annotation_at t = Some rest ->
                  P rest (remove_annotations rest) ->
                  P t (remove_annotations rest)) ->
  (forall c r, annotation_at (c :: r) = None ->
               P r (remove_annotations r) ->
               P (c :: r) (c :: remove_annotations r)) ->
  forall t, P t (remove_annotations t).
Proof.
  intros H0 Hm Hc t.
  remember (List.length t) as n eqn:En. revert t En.
  induction n as [n IH] using lt_wf_ind. intros t En.
  rewrite remove_annotations_eq.
  destruct (annotation_at t) as [rest |] eqn:E.
  - apply Hm; [exact E |]. apply annotation_at_consumes in E.
    eapply IH; [| reflexivity]. lia.
  - destruct t as [| c r]; [exact H0 |].
    apply Hc; [exact E |]. eapply IH; [| reflexivity]. simpl in En. lia.
Qed.

(** What is dropped lies within a line: a ['['] that no [']'] closes on
    its line is not closed after the removal either. *)
Lemma after_close_remove_annotations t :
  after_close t = None -> after_close (remove_annotations t) = None.
Proof.
  apply (remove_annotations_scan_ind
           (fun t out => after_close t = None -> after_close out = None)).
  - reflexivity.
  - intros t0 rest E _ H. exfalso.
    destruct t0 as [| c r]; simpl in E; [discriminate |].
    destruct (N.eqb_spec c LBRACKET) as [-> |]; [| discriminate].
    simpl in H. rewrite E in H. discriminate.
  - intros c r _ IH. simpl.
    destruct (c =? RBRACKET)%N; [discriminate |].
    destruct (c =? NEWLINE)%N; [reflexivity | exact IH].
Qed.

Lemma remove_annotations_clean t :
  no_closed_annotation (remove_annotations t).
Proof.
  apply (remove_annotations_scan_ind (fun _ out => no_closed_annotation out)).
  - exact I.
  - intros t0 rest _ IH. exact IH.
  - intros c r E IH. simpl. split; [| exact IH].
    intros ->. simpl in E. apply after_close_remove_annotations.
    destruct (after_close r); [discriminate | reflexivity].
Qed.

Lemma remove_annotations_fixed t :
  no_closed_annotation t -> remove_annotations t = t.
Proof.
  induction t as [| c r IH]; intros H; rewrite remove_annotations_eq.
  - reflexivity.
  - destruct H as [Hc Hr]. simpl.
    destruct (N.eqb_spec c LBRACKET) as [E |].
    + rewrite (Hc E). f_equal. apply IH, Hr.
    + f_equal. apply IH, Hr.
Qed.

Lemma no_bracket_pair_no_closed t :
  no_bracket_pair t -> no_closed_annotation t.
Proof.
  induction t as [| c r IH]; simpl; [tauto |].
  intros [Hc Hr]. split; [| apply IH, Hr].
  intros E. specialize (Hc E).
  destruct (after_close r) eqn:Er; [| reflexivity].
  apply NormalizerFacts.after_close_In in Er. contradiction.
Qed.

(** The removal is idempotent on every text: dropping the annotations
    never brings a ['['] and a [']'] together on a line. *)
Theorem remove_annotations_idempotent t :
  remove_annotations (remove_annotations t) = remove_annotations t.
Proof. apply remove_annotations_fixed, remove_annotations_clean. Qed.

(** The texts that the removal leaves as they are, are those in which
    no ['['] is closed on its line. *)
Theorem remove_annotations_fixed_points t :
  remove_annotations t = t <-> no_closed_annotation t.
Proof.
  split; [| apply remove_annotations_fixed].
  intros E. rewrite <- E. apply remove_annotations_clean.
Qed.

(** What [clean_response] returns for a text in which every ['[']
    that has a [']'] after it has one on its own line is sent to the
    speech backend as it is. *)
Theorem remove_annotations_after_clean_response x :
  annotations_closed_on_line x ->
  remove_annotations (clean_response x) = clean_response x.
Proof.
  intros H. apply remove_annotations_fixed, no_bracket_pair_no_closed.
  apply NormalizerFacts.no_bracket_pair_non_ws.
  rewrite NormalizerFacts.non_ws_clean_response.
  apply NormalizerFacts.no_bracket_pair_non_ws,
    NormalizerFacts.strip_annotations_no_pair_closed, H.
Qed.

Lemma remove_annotations_after_clean_response_witness :
  let x := of_string "Hello[smile]friend." ++ [NEWLINE]
           ++ of_string "I'm [a[b]] good" in
  annotations_closed_on_line x
  /\ clean_response x = of_string "Hello friend. I'm ] good"
  /\ remove_annotations (clean_response x) = clean_response x.
Proof.
  intros x.
  assert (H : annotations_closed_on_line x).
  { vm_compute. repeat split; intros E; try discriminate E;
      intros _; discriminate. }
  split; [exact H |]. split; [vm_compute; reflexivity |].
  apply remove_annotations_after_clean_response, H.
Defined.

(** *** The request and the file *)

Section GenerateAudio.

Variable post : str -> payload -> result Response.
Variable write_file : str -> list N -> result unit.
Variable generate_cache_file_name : option str -> str -> str.

(** Whatever the backend answers, exactly one request is made, first,
    to [api_url]; its text is the given text without its annotations, in
    which none is left, and its other fields are those of the instance. *)
Theorem generate_audio_request self text file_name_no_ext :
  exists body rest,
    snd (generate_audio post write_file generate_cache_file_name
           self text file_name_no_ext)
    = Post (api_url self) body :: rest
    /\ (forall url b, ~ In (Post url b) rest)
    /\ payload_text body = remove_annotations text
    /\ no_closed_annotation (payload_text body)
    /\ refer_wav_path body = ref_audio_path self
    /\ payload_prompt_text body = prompt_text self
    /\ prompt_language body = prompt_lang self
    /\ text_language body = text_lang self.
Proof.
  unfold generate_audio.
  destruct (post _ _) as [resp | e]; simpl.
  - destruct (is_error_status (status_code resp)); simpl.
    + eexists. eexists. split; [reflexivity |].
      split; [intros url b [] |]. simpl.
      repeat split. apply remove_annotations_clean.
    + destruct (status_code resp =? 200)%Z.
      * destruct (write_file _ _); simpl;
          (eexists; eexists; split; [reflexivity |];
           split; [intros url b [E | []]; discriminate |]; simpl;
           repeat split; apply remove_annotations_clean).
      * eexists. eexists. split; [reflexivity |].
        split; [intros url b [] |]. simpl.
        repeat split. apply remove_annotations_clean.
  - eexists. eexists. split; [reflexivity |].
    split; [intros url b [] |]. simpl.
    repeat split. apply remove_annotations_clean.
Qed.

Lemma ok_status_not_error status :
  status = 200%Z -> is_error_status status = false.
Proof. intros ->. reflexivity. Qed.

(** What the answer of the backend decides.  A file is written exactly
    when the request returns a response of status 200: the file is then
    the one that [generate_cache_file_name] names and it receives the body
    of the response.  The name is returned exactly when that write
    returns.  [HTTPError] leaves exactly on an error status (400 to 599),
    and [None] is returned exactly on a status that is neither an error
    nor 200, both without a write.  Any other exception that leaves is
    the one of the request or of the write. *)
Theorem generate_audio_writes_on_200 self text file_name_no_ext :
  let file_name :=
    generate_cache_file_name file_name_no_ext (media_type self) in
  let body :=
    {| refer_wav_path := ref_audio_path self;
       payload_prompt_text := prompt_text self;
       prompt_language := prompt_lang self;
       payload_text := remove_annotations text;
       text_language := text_lang self |} in
  let answer := post (api_url self) body in
  let r := generate_audio post write_file generate_cache_file_name
             self text file_name_no_ext in
  (forall f data,
      In (Write f data) (snd r) <->
      f = file_name
      /\ exists resp,
           answer = Ok resp
           /\ status_code resp = 200%Z /\ data = content resp)
  /\ (forall f,
        fst r = Returned (Some f) <->
        f = file_name
        /\ exists resp,
             answer = Ok resp
             /\ status_code resp = 200%Z
             /\ write_file file_name (content resp) = Ok tt)
  /\ (forall st,
        fst r = HTTPError st <->
        exists resp,
          answer = Ok resp
          /\ status_code resp = st /\ is_error_status st = true)
  /\ (fst r = Returned None <->
      exists resp,
        answer = Ok resp
        /\ is_error_status (status_code resp) = false
        /\ status_code resp <> 200%Z)
  /\ (forall e,
        fst r = Raised e <->
        answer = Raise e
        \/ exists resp,
             answer = Ok resp
             /\ status_code resp = 200%Z
             /\ write_file file_name (content resp) = Raise e).
Proof.
  intros file_name body answer r. subst r answer. unfold generate_audio.
  fold file_name. fold body.
  destruct (post (api_url self) body) as [resp | e0].
  - destruct (is_error_status (status_code resp)) eqn:Es.
    + assert (N200 : status_code resp <> 200%Z).
      { intros E. rewrite (ok_status_not_error E) in Es. discriminate. }
      simpl. split; [| split; [| split; [| split]]].
      * intros f data. split.
        -- intros [E | []]. discriminate.
        -- intros (_ & resp' & [= <-] & E & _). contradiction.
      * intros f. split; [discriminate |].
        intros (_ & resp' & [= <-] & E & _). contradiction.
      * intros st. split.
        -- intros [= <-]. exists resp. auto.
        -- intros (resp' & [= <-] & <- & _). reflexivity.
      * split; [discriminate |].
        intros (resp' & [= <-] & E & _). congruence.
      * intros e. split; [discriminate |].
        intros [E | (resp' & [= <-] & E & _)];
          [discriminate | contradiction].
    + destruct (Z.eqb_spec (status_code resp) 200) as [E200 | N200].
      * destruct (write_file file_name (content resp)) as [[] | e1] eqn:Ew;
          simpl; (split; [| split; [| split; [| split]]]).
        -- intros f data. split.
           ++ intros [E | [[= <- <-] | []]]; [discriminate |].
              split; [reflexivity |]. exists resp. auto.
           ++ intros (-> & resp' & [= <-] & _ & ->). right. left. reflexivity.
        -- intros f. split.
           ++ intros [= <-]. split; [reflexivity |]. exists resp. auto.
           ++ intros (-> & _). reflexivity.
        -- intros st. split; [discriminate |].
           intros (resp' & [= <-] & <- & E). congruence.
        -- split; [discriminate |].
           intros (resp' & [= <-] & _ & E). contradiction.
        -- intros e. split; [discriminate |].
           intros [E | (resp' & [= <-] & _ & E)]; [discriminate |].
           rewrite Ew in E. discriminate.
        -- intros f data. split.
           ++ intros [E | [[= <- <-] | []]]; [discriminate |].
              split; [reflexivity |]. exists resp. auto.
           ++ intros (-> & resp' & [= <-] & _ & ->). right. left. reflexivity.
        -- intros f. split; [discriminate |].
           intros (_ & resp' & [= <-] & _ & E). rewrite Ew in E.
           discriminate.
        -- intros st. split; [discriminate |].
           intros (resp' & [= <-] & <- & E). congruence.
        -- split; [discriminate |].
           intros (resp' & [= <-] & _ & E). contradiction.
        -- intros e. split.
           ++ intros [= <-]. right. exists resp. auto.
           ++ intros [E | (resp' & [= <-] & _ & E)]; [discriminate |].
              rewrite Ew in E. injection E as <-. reflexivity.
      * simpl. split; [| split; [| split; [| split]]].
        -- intros f data. split.
           ++ intros [E | []]. discriminate.
           ++ intros (_ & resp' & [= <-] & E & _). contradiction.
        -- intros f. split; [discriminate |].
           intros (_ & resp' & [= <-] & E & _). contradiction.
        -- intros st. split; [discriminate |].
           intros (resp' & [= <-] & <- & E). congruence.
        -- split; [| reflexivity]. intros _. exists resp. auto.
        -- intros e. split; [discriminate |].
           intros [E | (resp' & [= <-] & E & _)];
             [discriminate | contradiction].
  - simpl. split; [| split; [| split; [| split]]].
    + intros f data. split.
      * intros [E | []]. discriminate.
      * intros (_ & resp' & E & _). discriminate.
    + intros f. split; [discriminate |].
      intros (_ & resp' & E & _). discriminate.
    + intros st. split; [discriminate |].
      intros (resp' & E & _). discriminate.
    + split; [discriminate |]. intros (resp' & E & _). discriminate.
    + intros e. split.
      * intros [= <-]. left. reflexivity.
      * intros [[= <-] | (resp' & E & _)]; [reflexivity | discriminate].
Qed.

End GenerateAudio.

End TTSFacts.
